(** * Image search over CLIP embeddings stored in TiDB: the notebook
    [examples/image_search/example.ipynb], cell by cell.

    The notebook is glue code around three external systems: the
    pretrained CLIP model (processor and feature heads), the relational
    store reached through SQLAlchemy sessions, and the store's
    vector-distance operator.  The cells are embedded as functions over
    an explicit database state; the external systems are interfaces
    ([CLIP], [Metric]) whose operations the cells call. *)

From stdpp Require Import base strings gmap list sorting.
From Stdlib Require Import Reals Lra.

(** ** Exceptions *)

(** What the encoder can raise. *)
Inductive encoder_error : Type :=
  | ModelUnavailable
  | InputError.

(** How a cell can end abnormally.  Exceptions of the encoder propagate
    unchanged ([EncodingError e]); [StorageError] stands for the
    exceptions of the database driver; [IndexError] is Python's, raised
    by list subscripts; [InvalidK] is the spec's name for a rejected
    result limit. *)
Inductive error : Type :=
  | EncodingError (e : encoder_error)
  | StorageError
  | IndexError
  | InvalidK.

Inductive result (A : Type) : Type :=
  | Ok (a : A)
  | Err (e : error).
Arguments Ok {A} a.
Arguments Err {A} e.

#[global] Instance result_ret : MRet result := λ A a, Ok a.
#[global] Instance result_fmap : FMap result := λ A B f m,
  match m with
  | Ok a => Ok (f a)
  | Err e => Err e
  end.
#[global] Instance result_bind : MBind result := λ A B k m,
  match m with
  | Ok a => k a
  | Err e => Err e
  end.

(** An exception raised inside the encoder, seen from a cell. *)
Definition encoding {A} (r : encoder_error + A) : result A :=
  match r with
  | inl e => Err (EncodingError e)
  | inr a => Ok a
  end.

(** ** Prepare the environment *)

Definition CLIP_DIMENSION : nat := 512.

(** ** Python lists *)

(** [l[i]] for a Python list: a negative index counts from the end, and
    an index outside [-len l, len l) raises IndexError. *)
Definition getitem {A} (l : list A) (i : Z) : result A :=
  let n := Z.of_nat (length l) in
  let j := if (i <? 0)%Z then (n + i)%Z else i in
  if (j <? 0)%Z then Err IndexError
  else match l !! Z.to_nat j with
       | Some x => Ok x
       | None => Err IndexError
       end.

Section Notebook.

(** Payloads that are opaque to the notebook: a dataset image, the
    tensors the processor hands to the model, the components of an
    embedding (float32), the value of the distance column and the
    rounded similarity shown as a label. *)
Context {image pixel_values input_ids scalar distance label : Type}.

Definition vector : Type := list scalar.

(** *** Initial CLIP model *)

(** Modelled from the spec: the pretrained CLIP model and its processor
    ([CLIPModel.from_pretrained], [CLIPProcessor.from_pretrained]) are
    not part of the repository.  Section 4.1 of the spec gives their
    contract: one vector per input, order preserved, each of the
    configured dimension; malformed input raises an error.  A batch is
    therefore processed item by item. *)
Class CLIP := {
  processor_image : image → encoder_error + pixel_values;
  processor_text : string → encoder_error + input_ids;
  get_image_features : pixel_values → vector;
  get_text_features : input_ids → vector;
  image_features_dim : ∀ p, length (get_image_features p) = CLIP_DIMENSION;
  text_features_dim : ∀ t, length (get_text_features t) = CLIP_DIMENSION;
}.

(** The store's distance operator ([cosine_distance] of the vector
    column) and the order its ORDER BY puts on the distance column.  Both
    belong to the database engine and are parameters here; the order is
    total and transitive.  The engine's vector index is an access path
    only: a SELECT is taken with its exact meaning. *)
Class Metric := {
  cosine_distance : vector → vector → distance;
  distance_le : distance → distance → bool;
  distance_le_total : ∀ a b, distance_le a b = true ∨ distance_le b a = true;
  distance_le_trans : ∀ a b c,
    distance_le a b = true → distance_le b c = true → distance_le a c = true;
}.

(** [similarity d] is the label [round(1 - d, 3)], in float arithmetic. *)
Class Rounding := { similarity : distance → label }.

Context `{!CLIP, !Metric, !Rounding}.

(** *** Initial the Database and Table *)

(** An instance of the mapped class [ImageSearchTest]; [id] is [None]
    until the row has been inserted. *)
Record ImageSearchTest : Type := {
  id : option Z;
  image_id : Z;
  embedding : vector;
}.

Definition tablename : string := "image_search_test".

(** A table of the database [test]: the dimension of its vector column,
    the column's comment, the rows in primary-key order and the next
    auto-increment value. *)
Record table : Type := {
  vector_dim : nat;
  column_comment : string;
  rows : list ImageSearchTest;
  next_id : Z;
}.

Abbreviation database := (gmap string table).

(** The table [Base.metadata] describes, freshly created. *)
Definition image_search_test : table :=
  {| vector_dim := CLIP_DIMENSION;
     column_comment := "hnsw(distance=cosine)";
     rows := [];
     next_id := 1 |}.

(** [Base.metadata.drop_all(engine)]: DROP TABLE for the mapped table,
    when it exists. *)
Definition drop_all (db : database) : database := delete tablename db.

(** [Base.metadata.create_all(engine)]: CREATE TABLE for the mapped
    table, unless it exists. *)
Definition create_all (db : database) : database :=
  match db !! tablename with
  | Some _ => db
  | None => <[tablename := image_search_test]> db
  end.

Definition init_schema (db : database) : database := create_all (drop_all db).

(** *** Cells as state transformers *)

(** A cell runs against the database and ends with a value or an
    exception; the database it leaves behind is returned either way. *)
Record cell (A : Type) : Type := Cell { run : database → result A * database }.
Arguments Cell {A} run.
Arguments run {A} c db.

#[global] Instance cell_ret : MRet cell := λ A a, Cell (λ db, (Ok a, db)).
#[global] Instance cell_bind : MBind cell := λ A B k m,
  Cell (λ db, match run m db with
              | (Ok a, db') => run (k a) db'
              | (Err e, db') => (Err e, db')
              end).

(** A computation that does not touch the database. *)
Definition pure {A} (r : result A) : cell A := Cell (λ db, (r, db)).

(** *** Sessions *)

(** A session holds the objects added and not yet flushed. *)
Record session : Type := { new : list ImageSearchTest }.

Definition Session : session := {| new := [] |}.

Definition add_all (objects : list ImageSearchTest) (s : session) : session :=
  {| new := new s ++ objects |}.

(** The row an INSERT appends for an object that comes without a
    primary key, as all objects of the notebook do (they are built from
    [image_id] and [embedding] alone): the next auto-increment value
    becomes its key. *)
Definition stored (t : table) (obj : ImageSearchTest) : ImageSearchTest :=
  {| id := Some (next_id t); image_id := image_id obj; embedding := embedding obj |}.

(** INSERT of one object.  The statement is rejected when the table is
    missing or the vector does not fit the column's dimension. *)
Definition insert (obj : ImageSearchTest) (db : database) : result database :=
  match db !! tablename with
  | None => Err StorageError
  | Some t =>
      if decide (length (embedding obj) = vector_dim t)
      then Ok (<[tablename :=
                  {| vector_dim := vector_dim t;
                     column_comment := column_comment t;
                     rows := rows t ++ [stored t obj];
                     next_id := next_id t + 1 |}]> db)
      else Err StorageError
  end.

(** The INSERTs of a flush, in the order the objects were added. *)
Fixpoint flush (objects : list ImageSearchTest) (db : database) : result database :=
  match objects with
  | [] => Ok db
  | obj :: objects' => db' ← insert obj db; flush objects' db'
  end.

(** [session.commit()]: the pending objects are flushed inside one
    transaction; when a statement fails the transaction is rolled back
    and the exception propagates. *)
Definition commit (s : session) : cell session :=
  Cell (λ db, match flush (new s) db with
              | Ok db' => (Ok Session, db')
              | Err e => (Err e, db)
              end).

(** *** The query *)

(** [session.query(ImageSearchTest,
      ImageSearchTest.embedding.cosine_distance(q).label("distance"))] *)
Definition query (q : vector) (t : table) : list (ImageSearchTest * distance) :=
  map (λ obj, (obj, cosine_distance (embedding obj) q)) (rows t).

(** [.order_by(asc("distance"))].  The statement has one sort key, so
    which of two rows at the same distance comes first is left to the
    engine.  The order computed here takes them in table order; the
    properties of the query cell are stated so that they hold whichever
    way such ties fall. *)
Fixpoint insert_asc (x : ImageSearchTest * distance)
    (l : list (ImageSearchTest * distance)) : list (ImageSearchTest * distance) :=
  match l with
  | [] => [x]
  | y :: l' => if distance_le x.2 y.2 then x :: y :: l' else y :: insert_asc x l'
  end.

Definition order_by_asc (l : list (ImageSearchTest * distance))
  : list (ImageSearchTest * distance) :=
  foldr insert_asc [] l.

(** [.limit(n)] *)
Definition limit (n : nat) (l : list (ImageSearchTest * distance))
  : list (ImageSearchTest * distance) :=
  take n l.

(** [.all()]: the SELECT is sent; it fails when the table is missing. *)
Definition all (q : table → list (ImageSearchTest * distance))
  : cell (list (ImageSearchTest * distance)) :=
  Cell (λ db, match db !! tablename with
              | None => (Err StorageError, db)
              | Some t => (Ok (q t), db)
              end).

(** *** Define the encode function and other helper functions *)

(** Modelled from the spec: [processor(images=images)], the processor
    applied to a batch.  Section 4.1 of the spec takes a non-empty
    batch; an empty one is rejected as malformed input, and the images
    of a non-empty one are processed one by one, in order. *)
Definition processor_images (images : list image) : result (list pixel_values) :=
  match images with
  | [] => Err (EncodingError InputError)
  | _ :: _ => mapM (λ img, encoding (processor_image img)) images
  end.

Definition encode_images_to_embeddings (images : list image) : result (list vector) :=
  processor_images images ≫= λ inputs : list pixel_values,
  Ok (get_image_features <$> inputs).

Definition encode_text_to_embedding (text : string) : result vector :=
  inputs ← mapM (λ s, encoding (processor_text s)) [text];
  getitem (get_text_features <$> inputs) 0.

(** *** Store the images and their corresponding image embeddings *)

(** The loop [for i, embedding in enumerate(images_embedding)], from
    index [i] on. *)
Fixpoint build_objects (imagenet_images : list image) (i : nat)
    (images_embedding : list vector) : result (list ImageSearchTest) :=
  match images_embedding with
  | [] => Ok []
  | embedding :: rest =>
      _ ← getitem imagenet_images (Z.of_nat i);
      objects ← build_objects imagenet_images (S i) rest;
      Ok ({| id := None; image_id := Z.of_nat i; embedding := embedding |} :: objects)
  end.

Definition ingest (imagenet_images : list image) : cell unit :=
  images_embedding ← pure (encode_images_to_embeddings imagenet_images);
  objects ← pure (build_objects imagenet_images 0 images_embedding);
  _ ← commit (add_all objects Session);
  mret ().

(** *** Search for similar images using the text query *)

(** The statement that binds [results]. *)
Definition search (query_text_embedding : vector)
  : cell (list (ImageSearchTest * distance)) :=
  all (λ t, limit 5 (order_by_asc (query query_text_embedding t))).

(** The loop over [results] that fills [similar_images] and
    [similarities]. *)
Fixpoint collect (imagenet_images : list image)
    (results : list (ImageSearchTest * distance)) : result (list image * list label) :=
  match results with
  | [] => Ok ([], [])
  | (obj, d) :: rest =>
      img ← getitem imagenet_images (image_id obj);
      out ← collect imagenet_images rest;
      Ok (img :: out.1, similarity d :: out.2)
  end.

Definition search_images (imagenet_images : list image) (query_text : string)
  : cell (list image * list label) :=
  query_text_embedding ← pure (encode_text_to_embedding query_text);
  results ← search query_text_embedding;
  pure (collect imagenet_images results).

End Notebook.

Arguments Cell {scalar A} run.
Arguments run {scalar A} c db.

(** ** A small instance

    Images are integers (a negative one stands for a corrupt file), an
    embedding carries the image in its first component, a text is
    embedded by its length, and the distance is the squared Euclidean
    one, which like the cosine distance is least between a vector and
    itself. *)
Module Sample.

Definition sq_distance (u v : list Z) : Z :=
  foldr Z.add 0%Z (zip_with (λ a b, (a - b) * (a - b))%Z u v).

#[export] Instance clip : @CLIP Z Z string Z.
Proof.
  refine {| processor_image := λ z, if (z <? 0)%Z then inl InputError else inr z;
            processor_text := λ s, inr s;
            get_image_features := λ p, p :: replicate 511 0%Z;
            get_text_features := λ s, Z.of_nat (String.length s) :: replicate 511 0%Z |}.
  - intros p. by vm_compute.
  - intros t. by vm_compute.
Defined.

#[export] Instance metric : @Metric Z Z.
Proof.
  refine {| cosine_distance := sq_distance; distance_le := Z.leb |}.
  - intros a b. rewrite !Z.leb_le. lia.
  - intros a b c. rewrite !Z.leb_le. lia.
Defined.

#[export] Instance rounding : @Rounding Z Z := {| similarity := λ d, (1 - d)%Z |}.

(** The first cells run on the images [imgs], from an empty database;
    the database and the mapped table they leave. *)
Definition after_ingest (imgs : list Z) : result unit * gmap string (@table Z) :=
  run (ingest imgs) (init_schema ∅).

Definition db_of (imgs : list Z) : gmap string (@table Z) := (after_ingest imgs).2.

Definition table_of (imgs : list Z) : @table Z :=
  default image_search_test (db_of imgs !! tablename).

(** The embedding of the query text of the notebook. *)
Definition dog : list Z := get_text_features "dog".

(** What a result shows of its entries: the image and the distance. *)
Definition summary (results : list (@ImageSearchTest Z * Z)) : list (Z * Z) :=
  (λ x, (image_id x.1, x.2)) <$> results.

End Sample.

(** ** The cosine distance in exact arithmetic

    The store computes the distance of two vectors of the same
    dimension in floating point; over the reals it is 1 minus the
    cosine of the angle between them.  ([dot] runs over the common
    prefix of two lists; a vector without a direction has norm 0, and
    as division by 0 yields 0 here its distance to anything is 1.) *)
Module Exact.

Definition dot (u v : list R) : R := foldr Rplus 0%R (zip_with Rmult u v).

Definition norm (u : list R) : R := sqrt (dot u u).

Definition cosine (u v : list R) : R := (1 - dot u v / (norm u * norm v))%R.

Definition Rleb (a b : R) : bool := if Rle_dec a b then true else false.

Lemma Rleb_le a b : Rleb a b = true ↔ (a <= b)%R.
Proof. unfold Rleb. destruct (Rle_dec a b); split; (done || congruence). Qed.

#[export] Instance exact_metric : @Metric R R.
Proof.
  refine {| cosine_distance := cosine; distance_le := Rleb |}.
  - intros a b. rewrite !Rleb_le. lra.
  - intros a b c. rewrite !Rleb_le. lra.
Defined.

End Exact.

(** ** What the properties are stated with *)

Section Vocabulary.

Context {scalar distance : Type} `{!@Metric scalar distance}.

(** One entry of a result is at most as far from the query as another. *)
Definition asc (x y : @ImageSearchTest scalar * distance) : Prop :=
  distance_le x.2 y.2 = true.

(** The records a reader of the table sees. *)
Definition visible (db : gmap string (@table scalar)) : list (@ImageSearchTest scalar) :=
  match db !! tablename with
  | Some t => rows t
  | None => []
  end.

(** The objects the ingestion loop builds from the encoder's output. *)
Definition objects_of (images_embedding : list (@vector scalar))
  : list (@ImageSearchTest scalar) :=
  imap (λ i e, {| id := None; image_id := Z.of_nat i; embedding := e |})
       images_embedding.

(** The rows a flush appends for [objects] when the auto-increment
    counter stands at [n]. *)
Definition stored_from (n : Z) (objects : list (@ImageSearchTest scalar))
  : list (@ImageSearchTest scalar) :=
  imap (λ i obj, {| id := Some (n + Z.of_nat i)%Z;
                    image_id := image_id obj;
                    embedding := embedding obj |}) objects.

(** The table [t] after [objects] have been inserted. *)
Definition extended (t : @table scalar) (objects : list (@ImageSearchTest scalar))
  : @table scalar :=
  {| vector_dim := vector_dim t;
     column_comment := column_comment t;
     rows := rows t ++ stored_from (next_id t) objects;
     next_id := next_id t + Z.of_nat (length objects) |}.

(** Every row of the mapped table fits the dimension the notebook
    configures. *)
Definition well_dimensioned (db : gmap string (@table scalar)) : Prop :=
  ∀ t, db !! tablename = Some t →
    vector_dim t = CLIP_DIMENSION ∧
    Forall (λ r, length (embedding r) = CLIP_DIMENSION) (rows t).

(** The database states the notebook's writing cells lead to: the
    initialisation cell run on whatever the database held, then any
    number of committed sessions. *)
Inductive reachable : gmap string (@table scalar) → Prop :=
  | reachable_init db0 : reachable (init_schema db0)
  | reachable_commit db objects :
      reachable db → reachable (run (commit (add_all objects Session)) db).2.

(** The primary keys of the rows are set and increase along the table,
    below the auto-increment counter. *)
Definition ordered_keys (t : @table scalar) : Prop :=
  ∃ ks : list Z,
    id <$> rows t = Some <$> ks ∧
    StronglySorted Z.lt ks ∧
    Forall (λ k, (k < next_id t)%Z) ks.

End Vocabulary.

(** The database states the notebook's own cells lead to: the
    initialisation cell run on whatever the database held, then any
    number of runs of the ingestion cell.  Every object added on this
    path comes without a primary key. *)
Inductive ingested `{!@CLIP image pixel_values input_ids scalar}
    : gmap string (@table scalar) → Prop :=
  | ingested_init db0 : ingested (init_schema db0)
  | ingested_ingest db (images : list image) :
      ingested db → ingested (run (ingest images) db).2.

(** ** Properties *)

Section Properties.

Context {image pixel_values input_ids scalar distance label : Type}.
Context `{!@CLIP image pixel_values input_ids scalar,
          !@Metric scalar distance, !@Rounding distance label}.

Implicit Types (db : gmap string (@table scalar)) (t : @table scalar).
Implicit Types (obj r : @ImageSearchTest scalar).
Implicit Types (objects : list (@ImageSearchTest scalar)) (s : @session scalar).
Implicit Types (x y : @ImageSearchTest scalar * distance).
Implicit Types (l : list (@ImageSearchTest scalar * distance)).
Implicit Types (q : @vector scalar).

(** *** ORDER BY *)

Lemma asc_total x y : asc x y ∨ asc y x.
Proof. apply distance_le_total. Qed.

Lemma asc_trans x y z : asc x y → asc y z → asc x z.
Proof. apply distance_le_trans. Qed.

Lemma not_asc x y : ¬ asc x y → asc y x.
Proof. destruct (asc_total x y); tauto. Qed.

Lemma insert_asc_perm x l : insert_asc x l ≡ₚ x :: l.
Proof.
  induction l as [|y l IH]; cbn; [done|].
  destruct (distance_le x.2 y.2); [done|].
  rewrite IH. apply Permutation_swap.
Qed.

Lemma order_by_asc_cons x l :
  order_by_asc (x :: l) = insert_asc x (order_by_asc l).
Proof. reflexivity. Qed.

Lemma order_by_asc_perm l : order_by_asc l ≡ₚ l.
Proof.
  induction l as [|x l IH]; cbn; [done|].
  by rewrite insert_asc_perm, IH.
Qed.

Lemma order_by_asc_length l : length (order_by_asc l) = length l.
Proof. apply Permutation_length, order_by_asc_perm. Qed.

Lemma insert_asc_sorted x l :
  StronglySorted asc l → StronglySorted asc (insert_asc x l).
Proof.
  induction 1 as [|y l Hl IH Hy]; cbn.
  - repeat constructor.
  - destruct (distance_le x.2 y.2) eqn:Hxy.
    + constructor; [by constructor|].
      constructor; [done|].
      eapply Forall_impl; [exact Hy|]. intros z Hz. by eapply asc_trans.
    + constructor; [done|].
      rewrite insert_asc_perm. constructor; [|done].
      apply not_asc. unfold asc. by rewrite Hxy.
Qed.

Lemma order_by_asc_sorted l : StronglySorted asc (order_by_asc l).
Proof.
  induction l as [|x l IH]; cbn; [constructor|].
  by apply insert_asc_sorted.
Qed.

Lemma limit_length n l : length (limit n l) = n `min` length l.
Proof. apply length_take. Qed.

Lemma limit_all n l : length l ≤ n → limit n l = l.
Proof. apply take_ge. Qed.

Lemma limit_sorted n l : StronglySorted asc l → StronglySorted asc (limit n l).
Proof.
  intros Hl. rewrite <-(take_drop n l) in Hl.
  by apply StronglySorted_app_1_l in Hl.
Qed.

(** *** The result monad *)

Lemma mapM_Ok {A B} (f : A → result B) (xs : list A) (ys : list B) :
  mapM f xs = Ok ys ↔ Forall2 (λ a b, f a = Ok b) xs ys.
Proof.
  revert ys. induction xs as [|a xs IH]; intros ys; cbn.
  - split; [intros [= <-]; constructor | by inversion 1].
  - split.
    + destruct (f a) as [b|e] eqn:Ha; cbn; [|done].
      destruct (mapM f xs) as [ys'|e] eqn:Hxs; cbn; [|done].
      intros [= <-]. constructor; [done|]. by apply IH.
    + inversion 1 as [|? b ? ys' Ha Hxs]; subst. rewrite Ha. cbn.
      apply IH in Hxs. by rewrite Hxs.
Qed.

Lemma mapM_Err {A B} (f : A → result B) (xs : list A) e :
  mapM f xs = Err e → Exists (λ a, f a = Err e) xs.
Proof.
  induction xs as [|a xs IH]; cbn; [done|].
  destruct (f a) as [b|e'] eqn:Ha; cbn.
  - destruct (mapM f xs) as [ys'|e'] eqn:Hxs; cbn; [done|].
    intros [= ->]. right. by apply IH.
  - intros [= ->]. by left.
Qed.

Lemma mapM_fails {A B} (f : A → result B) (xs : list A) :
  Exists (λ a, ∃ e, f a = Err e) xs → ∃ e, mapM f xs = Err e.
Proof.
  induction 1 as [a xs [e Ha]|a xs _ [e IH]]; cbn.
  - rewrite Ha. by eexists.
  - destruct (f a); cbn; [|by eexists]. rewrite IH. by eexists.
Qed.

(** *** Python subscripts *)

Lemma getitem_nat {A} (xs : list A) (i : nat) (a : A) :
  xs !! i = Some a → getitem xs (Z.of_nat i) = Ok a.
Proof.
  intros Ha. unfold getitem. cbv zeta.
  assert ((Z.of_nat i <? 0)%Z = false) as Hi by (apply Z.ltb_ge; lia).
  by rewrite !Hi, Nat2Z.id, Ha.
Qed.

Lemma getitem_Err {A} (xs : list A) (i : Z) e : getitem xs i = Err e → e = IndexError.
Proof.
  unfold getitem. cbv zeta. destruct (_ <? 0)%Z; [congruence|].
  destruct (xs !! _); congruence.
Qed.

Lemma getitem_in_range {A} (xs : list A) (i : Z) :
  (0 ≤ i < Z.of_nat (length xs))%Z → ∃ a, getitem xs i = Ok a.
Proof.
  intros Hi. destruct (lookup_lt_is_Some_2 xs (Z.to_nat i)) as [a Ha]; [lia|].
  exists a. rewrite <-(Z2Nat.id i) by lia. by apply getitem_nat.
Qed.

(** *** The schema *)

Lemma init_schema_lookup db : init_schema db !! tablename = Some image_search_test.
Proof.
  unfold init_schema, create_all, drop_all.
  rewrite lookup_delete_eq. apply lookup_insert_eq.
Qed.

(** *** INSERT and flush *)

Lemma extended_nil t : extended t [] = t.
Proof.
  destruct t as [d c rs n]. unfold extended, stored_from. cbn.
  by rewrite app_nil_r, Z.add_0_r.
Qed.

Lemma stored_from_cons n obj objects :
  stored_from n (obj :: objects) =
    {| id := Some n; image_id := image_id obj; embedding := embedding obj |}
    :: stored_from (n + 1) objects.
Proof.
  unfold stored_from. cbn. rewrite Z.add_0_r. f_equal.
  apply imap_ext. intros i o _. cbn. do 2 f_equal. lia.
Qed.

Lemma stored_from_length n objects : length (stored_from n objects) = length objects.
Proof. apply length_imap. Qed.

Lemma insert_Ok obj db db' :
  insert obj db = Ok db' ↔
  ∃ t, db !! tablename = Some t ∧ length (embedding obj) = vector_dim t ∧
       db' = <[tablename := extended t [obj]]> db.
Proof.
  unfold insert. destruct (db !! tablename) as [t|]; [|by split; [|intros (? & ? & _)]].
  assert (extended t [obj] =
          {| vector_dim := vector_dim t; column_comment := column_comment t;
             rows := rows t ++ [stored t obj]; next_id := next_id t + 1 |}) as <-.
  { unfold extended. by rewrite stored_from_cons. }
  case_decide as Hfit; split.
  - intros [= <-]. by exists t.
  - by intros (? & [= <-] & _ & ->).
  - done.
  - intros (? & [= <-] & ? & _). done.
Qed.

Lemma extended_cons t obj objects :
  extended (extended t [obj]) objects = extended t (obj :: objects).
Proof.
  unfold extended at 1 3. cbn [vector_dim column_comment rows next_id extended].
  rewrite (stored_from_cons _ obj objects), (stored_from_cons _ obj []).
  rewrite <-app_assoc. cbn. f_equal. lia.
Qed.

(** A flush that goes through has inserted every object, in order. *)
Lemma flush_Ok objects db db' :
  flush objects db = Ok db' ↔
  (objects = [] ∧ db' = db) ∨
  ∃ t, db !! tablename = Some t ∧
       Forall (λ obj, length (embedding obj) = vector_dim t) objects ∧
       db' = <[tablename := extended t objects]> db.
Proof.
  revert db db'. induction objects as [|obj objects IH]; intros db db'; cbn.
  - split; [intros [= <-]; by left|].
    intros [[_ ->]|(t & Ht & _ & ->)]; [done|].
    by rewrite extended_nil, insert_id.
  - split.
    + destruct (insert obj db) as [db1|e] eqn:Hins; cbn; [|done].
      apply insert_Ok in Hins as (t & Ht & Hfit & ->). intros Hfl. right.
      exists t. apply IH in Hfl as [[-> ->]|(t1 & Ht1 & Hfits & ->)].
      * split_and!; [done | by repeat constructor | done].
      * rewrite lookup_insert_eq in Ht1. injection Ht1 as <-.
        rewrite insert_insert_eq, extended_cons.
        split_and!; [done | by constructor | done].
    + intros [[? _]|(t & Ht & Hfits & ->)]; [done|].
      apply Forall_cons in Hfits as [Hfit Hfits].
      assert (insert obj db = Ok (<[tablename := extended t [obj]]> db)) as ->.
      { apply insert_Ok. by exists t. }
      cbn. apply IH. right. exists (extended t [obj]).
      rewrite lookup_insert_eq, insert_insert_eq, extended_cons. done.
Qed.

Lemma visible_insert db t : visible (<[tablename := t]> db) = rows t.
Proof. unfold visible. by rewrite lookup_insert_eq. Qed.

(** What a reader sees after a flush that went through. *)
Lemma flush_visible objects db db' :
  flush objects db = Ok db' →
  ∃ n, visible db' = visible db ++ stored_from n objects.
Proof.
  intros [[-> ->]|(t & Ht & _ & ->)]%flush_Ok.
  - exists 1%Z. by rewrite app_nil_r.
  - exists (next_id t). rewrite visible_insert. unfold visible. by rewrite Ht.
Qed.

(** [commit] either rolls back or leaves the flushed database. *)
Lemma run_commit s db :
  (∃ e, run (commit s) db = (Err e, db) ∧ flush (new s) db = Err e) ∨
  (∃ db', run (commit s) db = (Ok Session, db') ∧ flush (new s) db = Ok db').
Proof.
  unfold commit. cbn. destruct (flush (new s) db) as [db'|e]; [right|left]; by eexists.
Qed.

(** *** The encode functions *)

Lemma encoding_Ok {A} (o : encoder_error + A) (a : A) : encoding o = Ok a ↔ o = inr a.
Proof. destruct o; cbn; split; congruence. Qed.

Lemma processor_images_cons (img : image) (images : list image) :
  processor_images (img :: images) =
    mapM (λ img, encoding (processor_image img)) (img :: images).
Proof. reflexivity. Qed.

Lemma encode_images_Ok (images : list image) (embs : list (@vector scalar)) :
  encode_images_to_embeddings images = Ok embs →
  ∃ inputs : list pixel_values,
    Forall2 (λ img p, processor_image img = inr p) images inputs ∧
            embs = get_image_features <$> inputs.
Proof.
  unfold encode_images_to_embeddings. destruct images as [|img images]; [done|].
  rewrite processor_images_cons.
  destruct (mapM _ (img :: images)) as [inputs|e] eqn:Hm; [|done].
  apply mapM_Ok in Hm. intros [= <-]. exists inputs. split; [|done].
  eapply Forall2_impl; [exact Hm|]. intros ??. by rewrite encoding_Ok.
Qed.

(** The empty batch is rejected. *)
Lemma encode_images_nonempty (images : list image) (embs : list (@vector scalar)) :
  encode_images_to_embeddings images = Ok embs → images ≠ [].
Proof. by destruct images. Qed.

Lemma encode_images_accepted (images : list image) (inputs : list pixel_values) :
  images ≠ [] →
  Forall2 (λ img p, processor_image img = inr p) images inputs →
  encode_images_to_embeddings images = Ok (get_image_features <$> inputs).
Proof.
  intros Hne Hp. unfold encode_images_to_embeddings.
  destruct images as [|img images]; [done|]. rewrite processor_images_cons.
  assert (mapM (λ img, encoding (processor_image img)) (img :: images) = Ok inputs)
    as ->; [|done].
  apply mapM_Ok. eapply Forall2_impl; [exact Hp|]. intros ??. by rewrite encoding_Ok.
Qed.

Lemma encode_images_length (images : list image) (embs : list (@vector scalar)) :
  encode_images_to_embeddings images = Ok embs → length embs = length images.
Proof.
  intros (inputs & Hp & ->)%encode_images_Ok.
  rewrite length_fmap. symmetry. by eapply Forall2_length.
Qed.

Lemma encode_images_fails (images : list image) :
  Exists (λ img, ∃ e, processor_image img = inl e) images →
  ∃ e, encode_images_to_embeddings images = Err (EncodingError e).
Proof.
  intros Hex. unfold encode_images_to_embeddings.
  destruct images as [|img0 images]; [by apply Exists_nil in Hex|].
  rewrite processor_images_cons.
  destruct (mapM_fails (λ img, encoding (processor_image img)) (img0 :: images))
    as [e He].
  { eapply Exists_impl; [exact Hex|]. intros img [e ->]. by eexists. }
  rewrite He. apply mapM_Err, Exists_exists in He as (img & _ & Himg).
  destruct (processor_image img) as [e'|]; [|done]. injection Himg as <-. by eexists.
Qed.

Lemma encode_text_cases (text : string) :
  (∃ e, processor_text text = inl e ∧
        encode_text_to_embedding text = Err (EncodingError e)) ∨
  (∃ ids, processor_text text = inr ids ∧
          encode_text_to_embedding text = Ok (get_text_features ids)).
Proof.
  unfold encode_text_to_embedding. cbn.
  destruct (processor_text text) as [e|ids]; cbn; [left|right]; by eexists.
Qed.

(** *** The ingestion loop *)

Lemma build_objects_Ok (images : list image) (embs : list (@vector scalar)) i :
  i + length embs ≤ length images →
  build_objects images i embs =
    Ok (imap (λ k e, {| id := None; image_id := Z.of_nat (i + k); embedding := e |}) embs).
Proof.
  revert i. induction embs as [|e embs IH]; intros i Hi; cbn in *; [done|].
  destruct (lookup_lt_is_Some_2 images i) as [img Himg]; [lia|].
  rewrite (getitem_nat _ _ _ Himg). cbn. rewrite IH by lia. cbn.
  rewrite Nat.add_0_r. do 2 f_equal.
  apply imap_ext. intros k e' _. cbn. do 2 f_equal. lia.
Qed.

Lemma build_objects_inv (images : list image) (embs : list (@vector scalar)) i objects :
  build_objects images i embs = Ok objects →
  objects = imap (λ k e, {| id := None; image_id := Z.of_nat (i + k); embedding := e |}) embs.
Proof.
  revert i objects. induction embs as [|e embs IH]; intros i objects; cbn.
  - by intros [= <-].
  - destruct (getitem images (Z.of_nat i)); cbn; [|done].
    destruct (build_objects images (S i) embs) as [objects'|] eqn:Hb; cbn; [|done].
    intros [= <-]. rewrite Nat.add_0_r. f_equal. rewrite (IH _ _ Hb).
    apply imap_ext. intros k e' _. cbn. do 2 f_equal. lia.
Qed.

Lemma objects_of_length (embs : list (@vector scalar)) :
  length (objects_of embs) = length embs.
Proof. apply length_imap. Qed.

(** The cell, with the monad unfolded. *)
Lemma run_ingest (images : list image) db :
  run (ingest images) db =
    match encode_images_to_embeddings images with
    | Err e => (Err e, db)
    | Ok embs =>
        match build_objects images 0 embs with
        | Err e => (Err e, db)
        | Ok objects =>
            match flush objects db with
            | Ok db' => (Ok (), db')
            | Err e => (Err e, db)
            end
        end
    end.
Proof.
  unfold ingest. cbn.
  destruct (encode_images_to_embeddings images) as [embs|]; [|done].
  destruct (build_objects images 0 embs) as [objects|]; [|done].
  cbn. by destruct (flush objects db).
Qed.

(** Once the images are encoded the loop cannot fail: it builds
    [objects_of] the embeddings. *)
Lemma build_objects_encoded (images : list image) (embs : list (@vector scalar)) :
  encode_images_to_embeddings images = Ok embs →
  build_objects images 0 embs = Ok (objects_of embs).
Proof.
  intros Hlen%encode_images_length. rewrite build_objects_Ok by lia. done.
Qed.

(** *** The query cell *)

Lemma run_search q db :
  run (search q) db =
    match db !! tablename with
    | None => (Err StorageError, db)
    | Some t => (Ok (limit 5 (order_by_asc (query q t))), db)
    end.
Proof. unfold search, all. cbn. by destruct (db !! tablename). Qed.

Lemma run_search_images (images : list image) (text : string) db :
  run (search_images images text) db =
    match encode_text_to_embedding text with
    | Err e => (Err e, db)
    | Ok q =>
        match db !! tablename with
        | None => (Err StorageError, db)
        | Some t => (collect images (limit 5 (order_by_asc (query q t))), db)
        end
    end.
Proof.
  unfold search_images.
  destruct (encode_text_to_embedding text) as [q|]; cbn; [|done].
  by destruct (db !! tablename).
Qed.

Lemma collect_in_range (images : list image) l :
  Forall (λ x, (0 ≤ image_id x.1 < Z.of_nat (length images))%Z) l →
  ∃ out, collect images l = Ok out ∧ length out.1 = length l ∧ length out.2 = length l.
Proof.
  induction 1 as [|[obj d] l Hx _ (out & Hout & Hl1 & Hl2)]; cbn; [by eexists|].
  destruct (getitem_in_range images (image_id obj)) as [img ->]; [exact Hx|].
  rewrite Hout. cbn. eexists. split; [done|]. cbn. lia.
Qed.

Lemma collect_not_InvalidK (images : list image) l : collect images l ≠ Err InvalidK.
Proof.
  induction l as [|[obj d] l IH]; cbn; [done|].
  destruct (getitem images (image_id obj)) as [img|e] eqn:Hg; cbn.
  - by destruct (collect images l).
  - apply getitem_Err in Hg as ->. done.
Qed.

Lemma query_elem q t x :
  x ∈ query q t ↔ ∃ obj, obj ∈ rows t ∧ x = (obj, cosine_distance (embedding obj) q).
Proof.
  unfold query. rewrite list_elem_of_fmap.
  split; intros (obj & ? & ?); by exists obj.
Qed.

Lemma ranking_split q t :
  let ranking := order_by_asc (query q t) in
  limit 5 ranking ++ drop 5 ranking ≡ₚ query q t ∧
  StronglySorted asc (limit 5 ranking ++ drop 5 ranking) ∧
  length (limit 5 ranking) = 5 `min` length (rows t).
Proof.
  cbn. unfold limit. rewrite take_drop, length_take, order_by_asc_length.
  split_and!; [apply order_by_asc_perm | apply order_by_asc_sorted|].
  unfold query. by rewrite length_fmap.
Qed.

(** *** Reachable databases *)

Lemma stored_from_embedding n objects r :
  r ∈ stored_from n objects → ∃ obj, obj ∈ objects ∧ embedding r = embedding obj.
Proof.
  unfold stored_from. intros (i & obj & -> & Hobj)%elem_of_lookup_imap.
  exists obj. split; [|done]. by eapply list_elem_of_lookup_2.
Qed.

Lemma flush_well_dimensioned objects db db' :
  well_dimensioned db → flush objects db = Ok db' → well_dimensioned db'.
Proof.
  intros Hwd [[_ ->]|(t & Ht & Hfits & ->)]%flush_Ok; [done|].
  intros t' Ht'. rewrite lookup_insert_eq in Ht'. injection Ht' as <-.
  destruct (Hwd t Ht) as [Hdim Hrows]. split; [done|]. cbn.
  apply Forall_app. split; [done|].
  apply Forall_forall. intros r (obj & Hobj & ->)%stored_from_embedding.
  rewrite Forall_forall in Hfits. rewrite (Hfits obj Hobj). done.
Qed.

Lemma reachable_well_dimensioned db : reachable db → well_dimensioned db.
Proof.
  induction 1 as [db0|db objects _ IH].
  - intros t. rewrite init_schema_lookup. intros [= <-]. by split; [|constructor].
  - destruct (run_commit (add_all objects Session) db)
      as [(e & -> & _)|(db' & -> & Hfl)]; [done|].
    by eapply flush_well_dimensioned.
Qed.

Lemma ingest_reachable (images : list image) db :
  reachable db → reachable (run (ingest images) db).2.
Proof.
  intros Hdb. rewrite run_ingest.
  destruct (encode_images_to_embeddings images) as [embs|]; [|done].
  destruct (build_objects images 0 embs) as [objects|]; [|done].
  pose proof (reachable_commit db objects Hdb) as Hr.
  unfold commit in Hr. cbn in Hr. by destruct (flush objects db).
Qed.

(** *** What one ingestion stores *)

Lemma stored_objects_lookup n (embs : list (@vector scalar)) i r :
  stored_from n (objects_of embs) !! i = Some r ↔
  ∃ e, embs !! i = Some e ∧
       r = {| id := Some (n + Z.of_nat i)%Z; image_id := Z.of_nat i; embedding := e |}.
Proof.
  unfold stored_from, objects_of. rewrite !list_lookup_imap.
  destruct (embs !! i) as [e|]; cbn; split.
  - intros [= <-]. by exists e.
  - by intros (? & [= <-] & ->).
  - done.
  - by intros (? & ? & _).
Qed.

Lemma stored_objects_image_id n (embs : list (@vector scalar)) r :
  r ∈ stored_from n (objects_of embs) →
  (0 ≤ image_id r < Z.of_nat (length embs))%Z.
Proof.
  intros [i Hi]%list_elem_of_lookup_1.
  apply stored_objects_lookup in Hi as (e & He%lookup_lt_Some & ->). cbn. lia.
Qed.

(** A successful ingestion, spelled out. *)
Lemma ingest_Ok (images : list image) db db' :
  run (ingest images) db = (Ok (), db') ↔
  ∃ embs, encode_images_to_embeddings images = Ok embs ∧
          flush (objects_of embs) db = Ok db'.
Proof.
  rewrite run_ingest.
  destruct (encode_images_to_embeddings images) as [embs|] eqn:Henc;
    [|split; [done|by intros (? & ? & _)]].
  rewrite (build_objects_encoded _ _ Henc).
  destruct (flush (objects_of embs) db) as [db1|] eqn:Hfl.
  - split; [intros [= <-]; by eexists|]. intros (? & [= <-] & Hfl'). congruence.
  - split; [done|]. intros (? & [= <-] & Hfl'). congruence.
Qed.

(** An ingestion that does not succeed leaves the database as it was. *)
Lemma ingest_Err (images : list image) db e db' :
  run (ingest images) db = (Err e, db') → db' = db.
Proof.
  rewrite run_ingest.
  destruct (encode_images_to_embeddings images) as [embs|]; [|congruence].
  destruct (build_objects images 0 embs) as [objects|]; [|congruence].
  destruct (flush objects db); congruence.
Qed.

(** *** The query pipeline *)

(** C1 (as amended): for every state of the table and every query
    vector, the statement that binds [results] returns (record,
    distance) pairs, each distance being the metric between the stored
    embedding and the query vector; the pairs are in ascending order of
    distance, they are the nearest of all stored records (whatever is
    left out is at least as far as everything returned), and there are
    5 of them, or as many as there are rows when fewer are stored: the
    limit is the constant 5 of the cell, not a value the caller gives. *)
Theorem search_ranked_top5 db t q :
  db !! tablename = Some t →
  ∃ results rest,
    run (search q) db = (Ok results, db) ∧
    results ++ rest ≡ₚ (λ obj, (obj, cosine_distance (embedding obj) q)) <$> rows t ∧
    StronglySorted asc (results ++ rest) ∧
    length results = 5 `min` length (rows t).
Proof.
  intros Ht. rewrite run_search, Ht.
  exists (limit 5 (order_by_asc (query q t))), (drop 5 (order_by_asc (query q t))).
  split; [done|]. apply ranking_split.
Qed.

(** C9: whatever the database holds and whatever the query, a result
    of the search has at most 5 entries, and exactly 5 as soon as 5 or
    more records are stored. *)
Theorem search_at_most_5 db q results db' :
  run (search q) db = (Ok results, db') →
  length results ≤ 5 ∧ (5 ≤ length (visible db) → length results = 5).
Proof.
  rewrite run_search. unfold visible.
  destruct (db !! tablename) as [t|]; [|done]. intros Hrun.
  assert (results = limit 5 (order_by_asc (query q t))) as -> by congruence.
  destruct (ranking_split q t) as (_ & _ & ->). lia.
Qed.

(** C4 (as amended): no run of the query cell ends in InvalidK, since
    the limit is the constant 5 and nothing checks it; and when at most
    5 records are stored the search returns all of them, ranked. *)
Theorem search_has_no_InvalidK (images : list image) (text : string) db q :
  (run (search q) db).1 ≠ Err InvalidK ∧
  (run (search_images images text) db).1 ≠ Err InvalidK ∧
  (∀ t, db !! tablename = Some t → length (rows t) ≤ 5 →
     ∃ results,
       run (search q) db = (Ok results, db) ∧
       results ≡ₚ (λ obj, (obj, cosine_distance (embedding obj) q)) <$> rows t ∧
       StronglySorted asc results).
Proof.
  split_and!.
  - rewrite run_search. by destruct (db !! tablename).
  - rewrite run_search_images.
    destruct (encode_text_cases text) as [(e & _ & ->)|(ids & _ & ->)]; [done|].
    destruct (db !! tablename); [|done]. apply collect_not_InvalidK.
  - intros t Ht Hlen. rewrite run_search, Ht. eexists. split; [done|].
    rewrite limit_all by (rewrite order_by_asc_length; unfold query;
                          by rewrite length_fmap).
    split; [apply order_by_asc_perm | apply order_by_asc_sorted].
Qed.

(** C5 (as amended): when the query vector is the embedding of a stored
    record, and no vector is nearer to the query than the query itself
    (as is the case for the cosine distance, where that distance is 0),
    the first result is a stored record at exactly that least distance;
    it is the queried record itself when no other stored record is at
    that distance.  Which of several records at the least distance
    comes first is left to the engine. *)
Theorem search_self_first db t r :
  db !! tablename = Some t →
  r ∈ rows t →
  (∀ u, distance_le (cosine_distance (embedding r) (embedding r))
                    (cosine_distance u (embedding r)) = true) →
  ∃ r' d rest,
    run (search (embedding r)) db = (Ok ((r', d) :: rest), db) ∧
    r' ∈ rows t ∧
    d = cosine_distance (embedding r') (embedding r) ∧
    distance_le d (cosine_distance (embedding r) (embedding r)) = true ∧
    distance_le (cosine_distance (embedding r) (embedding r)) d = true ∧
    ((∀ r0, r0 ∈ rows t →
        distance_le (cosine_distance (embedding r0) (embedding r))
                    (cosine_distance (embedding r) (embedding r)) = true →
        r0 = r) →
     r' = r).
Proof.
  intros Ht Hr Hself. set (q := embedding r) in *.
  set (self := (r, cosine_distance q q)).
  assert (self ∈ order_by_asc (query q t)) as Hin.
  { rewrite order_by_asc_perm. apply query_elem. by exists r. }
  pose proof (order_by_asc_sorted (query q t)) as Hsorted.
  rewrite run_search, Ht.
  destruct (order_by_asc (query q t)) as [|[r' d] ranking] eqn:Hrank;
    [by apply elem_of_nil in Hin|].
  exists r', d, (take 4 ranking). split; [done|].
  assert ((r', d) ∈ query q t) as (obj & Hobj & [= <- ->])%query_elem.
  { rewrite <-order_by_asc_perm, Hrank. left. }
  assert (distance_le (cosine_distance (embedding r') q) (cosine_distance q q) = true)
    as Hleast.
  { apply StronglySorted_cons in Hsorted as [Hall _].
    apply elem_of_cons in Hin as [[= <-]|Hin].
    - destruct (distance_le_total (cosine_distance q q) (cosine_distance q q)); done.
    - rewrite Forall_forall in Hall. apply (Hall self Hin). }
  split_and!; [done|done|done|apply Hself|].
  intros Honly. by apply Honly.
Qed.

(** X14: the query cell reads only.  Whether it shows images or ends in
    an exception (a rejected text, a missing table, a subscript out of
    range), the whole database is afterwards as it was before, and so
    it is after the statement that binds [results]. *)
Theorem query_cell_reads_only (images : list image) (text : string) db q :
  (run (search_images images text) db).2 = db ∧ (run (search q) db).2 = db.
Proof.
  split.
  - rewrite run_search_images.
    destruct (encode_text_to_embedding text); [|done].
    by destruct (db !! tablename).
  - rewrite run_search. by destruct (db !! tablename).
Qed.

(** *** The schema initializer *)

(** C7: whatever the database held, after the initialisation cell the
    mapped table exists, with a vector column of the configured
    dimension 512 under the cosine index comment, and it has no rows. *)
Theorem init_schema_resets db :
  ∃ t, init_schema db !! tablename = Some t ∧
       vector_dim t = 512 ∧
       column_comment t = "hnsw(distance=cosine)" ∧
       rows t = [] ∧
       visible (init_schema db) = [].
Proof.
  exists image_search_test. unfold visible. by rewrite init_schema_lookup.
Qed.

(** *** The ingestion pipeline *)

(** C2: an ingestion is all or nothing.  Either the cell ends with an
    exception and the database is as it was before, or it succeeds and
    the rows a reader sees are the old ones followed by one row for
    every item of the batch.  When the processor rejects any one image
    of the batch, the cell ends with that encoder's exception and the
    database is as it was before. *)
Theorem ingest_atomic (images : list image) db :
  ((∃ e, run (ingest images) db = (Err e, db)) ∨
   (∃ embs n db',
      run (ingest images) db = (Ok (), db') ∧
      encode_images_to_embeddings images = Ok embs ∧
      length embs = length images ∧
      visible db' = visible db ++ stored_from n (objects_of embs))) ∧
  (Exists (λ img, ∃ e, processor_image img = inl e) images →
   ∃ e, run (ingest images) db = (Err (EncodingError e), db)).
Proof.
  split.
  - destruct (run (ingest images) db) as [[[]|e] db'] eqn:Hrun.
    + right. apply ingest_Ok in Hrun as (embs & Henc & Hfl).
      destruct (flush_visible _ _ _ Hfl) as [n Hvis].
      exists embs, n, db'. split_and!; try done. by apply encode_images_length.
    + left. exists e. by rewrite (ingest_Err _ _ _ _ Hrun).
  - intros [e He]%encode_images_fails. exists e. by rewrite run_ingest, He.
Qed.

(** C6: a successful ingestion appends exactly one row per image of the
    batch, in the order of the batch: the row for the i-th image has
    [image_id] i and, as embedding, the features of that image.  And the
    ingestion of a non-empty batch does succeed when the table exists
    with the configured dimension and the processor accepts every
    image. *)
Theorem ingest_one_record_per_item (images : list image) db :
  (∀ db', run (ingest images) db = (Ok (), db') →
     ∃ added,
       visible db' = visible db ++ added ∧
       length added = length images ∧
       ∀ i img, images !! i = Some img →
         ∃ p r, processor_image img = inr p ∧
                added !! i = Some r ∧
                image_id r = Z.of_nat i ∧
                embedding r = get_image_features p) ∧
  (∀ t, images ≠ [] →
        db !! tablename = Some t →
        vector_dim t = CLIP_DIMENSION →
        Forall (λ img, ∃ p, processor_image img = inr p) images →
        ∃ db', run (ingest images) db = (Ok (), db')).
Proof.
  split.
  - intros db' (embs & Henc & Hfl)%ingest_Ok.
    destruct (flush_visible _ _ _ Hfl) as [n Hvis].
    exists (stored_from n (objects_of embs)). split; [done|].
    rewrite stored_from_length, objects_of_length.
    split; [by apply encode_images_length|].
    apply encode_images_Ok in Henc as (inputs & Hp & ->).
    intros i img Himg.
    destruct (Forall2_lookup_l _ _ _ _ _ Hp Himg) as (p & Hpi & Himgp).
    exists p, {| id := Some (n + Z.of_nat i)%Z; image_id := Z.of_nat i;
                 embedding := get_image_features p |}.
    split_and!; [done| |done|done].
    apply stored_objects_lookup. eexists. split; [|done].
    by rewrite list_lookup_fmap, Hpi.
  - intros t Hne Ht Hdim Hall.
    assert (∃ inputs : list pixel_values,
              Forall2 (λ img p, processor_image img = inr p) images inputs)
      as [inputs Hp].
    { clear Hne. induction Hall as [|img images [p Hp] _ [inputs IH]].
      - exists []. constructor.
      - exists (p :: inputs). by constructor. }
    exists (<[tablename := extended t (objects_of (get_image_features <$> inputs))]> db).
    apply ingest_Ok. eexists. split; [by apply encode_images_accepted|].
    apply flush_Ok. right. exists t. split_and!; [done| |done].
    apply Forall_forall.
    intros obj (i & e & -> & He)%elem_of_lookup_imap.
    apply list_lookup_fmap_Some in He as (p & -> & _).
    cbn. by rewrite image_features_dim.
Qed.

(** *** Dimensions *)

(** C3: the configured dimension is 512; in every database the
    notebook's writing cells lead to, the vector column of the mapped
    table has that dimension and so has the embedding of every stored
    record; and the encoder returns, for a non-empty batch of images,
    one vector per image, each of that dimension. *)
Theorem embeddings_have_clip_dimension :
  CLIP_DIMENSION = 512 ∧
  (∀ db t r, reachable db → db !! tablename = Some t → r ∈ rows t →
     vector_dim t = CLIP_DIMENSION ∧ length (embedding r) = CLIP_DIMENSION) ∧
  (∀ (images : list image) embs, images ≠ [] →
     encode_images_to_embeddings images = Ok embs →
     length embs = length images ∧
     ∀ i v, embs !! i = Some v → length v = CLIP_DIMENSION).
Proof.
  split_and!; [done| |].
  - intros db t r Hdb%reachable_well_dimensioned Ht Hr.
    destruct (Hdb t Ht) as [Hdim Hrows]. split; [done|].
    rewrite Forall_forall in Hrows. by apply Hrows.
  - intros images embs _ Henc. split; [by apply encode_images_length|].
    apply encode_images_Ok in Henc as (inputs & _ & ->).
    intros i v (p & -> & _)%list_lookup_fmap_Some. apply image_features_dim.
Qed.

(** *** Display *)

(** C10: when the table was initialised and then filled by one
    successful ingestion of [images], every record a search returns has
    an [image_id] that is an index into [images], the loop that looks
    the images up succeeds, and no run of the query cell with that list
    ends in an IndexError. *)
Theorem display_in_bounds (images : list image) db0 db1 :
  run (ingest images) (init_schema db0) = (Ok (), db1) →
  (∀ q results db2, run (search q) db1 = (Ok results, db2) →
     Forall (λ x, (0 ≤ image_id x.1 < Z.of_nat (length images))%Z) results ∧
     ∃ out, collect images results = Ok out) ∧
  (∀ text, (run (search_images images text) db1).1 ≠ Err IndexError).
Proof.
  intros (embs & Henc & Hfl)%ingest_Ok.
  apply encode_images_length in Henc.
  assert (∃ t, db1 !! tablename = Some t ∧
               Forall (λ r, (0 ≤ image_id r < Z.of_nat (length images))%Z) (rows t))
    as (t & Ht & Hrows).
  { apply flush_Ok in Hfl as [[_ ->]|(t & Ht & _ & ->)].
    - exists image_search_test. split; [apply init_schema_lookup|constructor].
    - rewrite init_schema_lookup in Ht. injection Ht as <-.
      eexists. split; [apply lookup_insert_eq|]. cbn.
      apply Forall_forall. intros r Hr%stored_objects_image_id. lia. }
  assert (∀ q, Forall (λ x, (0 ≤ image_id x.1 < Z.of_nat (length images))%Z)
                 (limit 5 (order_by_asc (query q t)))) as Hres.
  { intros q. apply Forall_take. rewrite order_by_asc_perm. unfold query.
    apply Forall_fmap. by eapply Forall_impl; [exact Hrows|]. }
  split.
  - intros q results db2. rewrite run_search, Ht. intros Hrun.
    assert (results = limit 5 (order_by_asc (query q t))) as -> by congruence.
    split; [done|].
    destruct (collect_in_range images _ (Hres q)) as (out & -> & _). by eexists.
  - intros text. rewrite run_search_images.
    destruct (encode_text_cases text) as [(e & _ & ->)|(ids & _ & ->)]; [done|].
    rewrite Ht. cbn.
    by destruct (collect_in_range images _ (Hres (get_text_features ids)))
      as (out & -> & _).
Qed.

(** ** Further properties of the cells *)

(** *** What the cells leave alone *)

Lemma flush_other_tables objects db db' (name : string) :
  flush objects db = Ok db' → name ≠ tablename → db' !! name = db !! name.
Proof.
  intros [[_ ->]|(t & _ & _ & ->)]%flush_Ok Hname; [done|].
  by rewrite lookup_insert_ne.
Qed.

Lemma init_schema_other_tables db (name : string) :
  name ≠ tablename → init_schema db !! name = db !! name.
Proof.
  intros Hname. unfold init_schema, create_all, drop_all.
  rewrite lookup_delete_eq, lookup_insert_ne, lookup_delete_ne; done.
Qed.

(** The database an ingestion leaves is the one it found, or the one
    its flush produced. *)
Lemma ingest_final (images : list image) db :
  (run (ingest images) db).2 = db ∨
  ∃ objects, flush objects db = Ok (run (ingest images) db).2.
Proof.
  rewrite run_ingest.
  destruct (encode_images_to_embeddings images) as [embs|]; [|by left].
  destruct (build_objects images 0 embs) as [objects|]; [|by left].
  destruct (flush objects db) as [db'|] eqn:Hfl; [|by left].
  right. by exists objects.
Qed.

Lemma ingest_other_tables (images : list image) db (name : string) :
  name ≠ tablename → (run (ingest images) db).2 !! name = db !! name.
Proof.
  intros Hname. destruct (ingest_final images db) as [->|[objects Hfl]]; [done|].
  by eapply flush_other_tables.
Qed.

(** X1: no cell touches a table other than the mapped one: the schema
    initializer drops and creates [image_search_test] only, the
    ingestion inserts into it only, and the query cell writes nothing. *)
Theorem cells_leave_other_tables (images : list image) (text : string) db
    (name : string) :
  name ≠ tablename →
  init_schema db !! name = db !! name ∧
  (run (ingest images) db).2 !! name = db !! name ∧
  (run (search_images images text) db).2 !! name = db !! name.
Proof.
  intros Hname. split_and!.
  - by apply init_schema_other_tables.
  - by apply ingest_other_tables.
  - rewrite run_search_images.
    destruct (encode_text_to_embedding text); [|done].
    by destruct (db !! tablename).
Qed.

(** X2: running the schema initializer again after an ingestion gives the
    very database a first initialisation gave: rows and auto-increment
    counter are reset, and nothing of the ingestion is left. *)
Theorem init_schema_forgets_ingest (images : list image) db :
  init_schema (run (ingest images) (init_schema db)).2 = init_schema db.
Proof.
  apply map_eq. intros name. destruct (decide (name = tablename)) as [->|Hname].
  - by rewrite !init_schema_lookup.
  - rewrite !(init_schema_other_tables _ name Hname).
    rewrite (ingest_other_tables _ _ name Hname).
    by apply init_schema_other_tables.
Qed.

(** *** Cells run without the table, sessions with a misfit *)

Lemma accepted_inputs (images : list image) :
  Forall (λ img, ∃ p, processor_image img = inr p) images →
  ∃ inputs : list pixel_values,
    Forall2 (λ img p, processor_image img = inr p) images inputs.
Proof.
  induction 1 as [|img images [p Hp] _ [inputs IH]].
  - exists []. constructor.
  - exists (p :: inputs). by constructor.
Qed.

Lemma insert_Err obj db e : insert obj db = Err e → e = StorageError.
Proof.
  unfold insert. destruct (db !! tablename); [|congruence].
  case_decide; congruence.
Qed.

Lemma flush_Err objects db e : flush objects db = Err e → e = StorageError.
Proof.
  revert db. induction objects as [|obj objects IH]; intros db; cbn; [done|].
  destruct (insert obj db) as [db1|e1] eqn:Hins; cbn; [by apply IH|].
  intros [= <-]. by eapply insert_Err.
Qed.

(** X3: before the initialisation cell has created the table (or after the
    table was dropped), the ingestion of a non-empty batch of accepted
    images and every search end in a storage error, and the database
    stays as it is. *)
Theorem cells_need_the_table (images : list image) (text : string) db :
  db !! tablename = None →
  (images ≠ [] →
   Forall (λ img, ∃ p, processor_image img = inr p) images →
   run (ingest images) db = (Err StorageError, db)) ∧
  (∀ q, run (search q) db = (Err StorageError, db)) ∧
  (∀ ids, processor_text text = inr ids →
     run (search_images images text) db = (Err StorageError, db)).
Proof.
  intros Hnone. split_and!.
  - intros Hne [inputs Hp]%accepted_inputs.
    assert (encode_images_to_embeddings images = Ok (get_image_features <$> inputs))
      as Henc by (by apply encode_images_accepted).
    rewrite run_ingest, Henc, (build_objects_encoded _ _ Henc).
    destruct Hp as [|img p images inputs _ _]; [done|].
    cbn. unfold insert. by rewrite Hnone.
  - intros q. by rewrite run_search, Hnone.
  - intros ids Hids. rewrite run_search_images.
    destruct (encode_text_cases text) as [(e & He & _)|(ids' & _ & ->)]; [congruence|].
    by rewrite Hnone.
Qed.

(** X4: a session that holds an object whose vector does not fit the
    column, wherever in the session it stands, cannot be committed: the
    commit ends in a storage error and none of the session's objects is
    stored. *)
Theorem commit_rejects_misfit objects db t :
  db !! tablename = Some t →
  Exists (λ obj, length (embedding obj) ≠ vector_dim t) objects →
  run (commit (add_all objects Session)) db = (Err StorageError, db).
Proof.
  intros Ht Hex.
  destruct (run_commit (add_all objects Session) db)
    as [(e & -> & He)|(db' & _ & Hfl)].
  - cbn in He. by apply flush_Err in He as ->.
  - exfalso. cbn in Hfl.
    apply flush_Ok in Hfl as [[-> _]|(t' & Ht' & Hfits & _)].
    + by apply Exists_nil in Hex.
    + rewrite Ht in Ht'. injection Ht' as <-.
      apply Exists_exists in Hex as (obj & Hobj & Hmis).
      rewrite Forall_forall in Hfits. by apply Hmis, Hfits.
Qed.

(** *** Primary keys *)

Lemma insert_ordered_keys obj db db' :
  id obj = None →
  insert obj db = Ok db' →
  (∀ t, db !! tablename = Some t → ordered_keys t) →
  ∀ t', db' !! tablename = Some t' → ordered_keys t'.
Proof.
  intros _ (t & Ht & _ & ->)%insert_Ok Hdb t'.
  rewrite lookup_insert_eq. intros [= <-].
  destruct (Hdb t Ht) as (ks & Hks & Hsorted & Hbelow).
  exists (ks ++ [next_id t]). unfold extended. cbn [rows next_id length].
  rewrite stored_from_cons. split_and!.
  - rewrite !fmap_app, Hks. done.
  - apply StronglySorted_app. split_and!; [|done|repeat constructor].
    intros k1 k2 Hk1 ->%list_elem_of_singleton.
    rewrite Forall_forall in Hbelow. by apply Hbelow.
  - apply Forall_app. split.
    + eapply Forall_impl; [exact Hbelow|]. cbn. lia.
    + repeat constructor. lia.
Qed.

Lemma flush_ordered_keys objects db db' :
  Forall (λ obj, id obj = None) objects →
  flush objects db = Ok db' →
  (∀ t, db !! tablename = Some t → ordered_keys t) →
  ∀ t', db' !! tablename = Some t' → ordered_keys t'.
Proof.
  intros Hnone. revert db.
  induction Hnone as [|obj objects Hobj _ IH]; intros db; cbn.
  - by intros [= <-].
  - destruct (insert obj db) as [db1|] eqn:Hins; cbn; [|done].
    intros Hfl Hdb. eapply IH; [exact Hfl|]. by eapply insert_ordered_keys.
Qed.

Lemma objects_of_no_key (embs : list (@vector scalar)) :
  Forall (λ obj, id obj = None) (objects_of embs).
Proof.
  apply Forall_forall. by intros obj (i & e & -> & _)%elem_of_lookup_imap.
Qed.

Lemma ingested_ordered_keys db t :
  ingested db → db !! tablename = Some t → ordered_keys t.
Proof.
  intros Hdb. revert t. induction Hdb as [db0|db images _ IH]; intros t.
  - rewrite init_schema_lookup. intros [= <-]. exists []. by repeat constructor.
  - destruct (run (ingest images) db) as [[[]|e] db'] eqn:Hrun; cbn.
    + apply ingest_Ok in Hrun as (embs & _ & Hfl).
      eapply flush_ordered_keys; [apply objects_of_no_key|exact Hfl|exact IH].
    + apply ingest_Err in Hrun as ->. apply IH.
Qed.

Lemma increasing_NoDup (ks : list Z) : StronglySorted Z.lt ks → NoDup ks.
Proof.
  induction 1 as [|k ks _ IH Hk]; constructor; [|done].
  intros Hin. rewrite Forall_forall in Hk. specialize (Hk k Hin). lia.
Qed.

(** X5: in every database the notebook's own cells lead to (the
    initialisation cell, then any number of runs of the ingestion
    cell), each row of the table has a primary key and the keys are
    pairwise distinct. *)
Theorem primary_keys_distinct db t :
  ingested db →
  db !! tablename = Some t →
  ∃ ks : list Z, id <$> rows t = Some <$> ks ∧ NoDup ks.
Proof.
  intros Hdb Ht.
  destruct (ingested_ordered_keys db t Hdb Ht) as (ks & Hks & Hsorted & _).
  exists ks. split; [done|by apply increasing_NoDup].
Qed.

(** X6: in such a database a search never returns the same row twice:
    the primary keys of the records of a result are pairwise
    distinct. *)
Theorem search_returns_rows_once db q results db' :
  ingested db →
  run (search q) db = (Ok results, db') →
  NoDup ((λ x, id x.1) <$> results).
Proof.
  intros Hdb. rewrite run_search.
  destruct (db !! tablename) as [t|] eqn:Ht; [|done]. intros Hrun.
  assert (results = limit 5 (order_by_asc (query q t))) as -> by congruence.
  destruct (ingested_ordered_keys db t Hdb Ht) as (ks & Hks & Hsorted & _).
  unfold limit. rewrite fmap_take.
  eapply sublist_NoDup; [|apply sublist_take].
  rewrite order_by_asc_perm. unfold query.
  rewrite <-list_fmap_compose.
  change (NoDup (id <$> rows t)). rewrite Hks.
  apply (NoDup_fmap_2 Some), increasing_NoDup, Hsorted.
Qed.

(** *** Rankings without ties *)

(** X7: when no two stored rows are at the same distance from the
    query, the result does not depend on how the engine orders ties:
    the first 5 entries of any ascending arrangement of the rows with
    their distances are the result of the search. *)
Theorem search_result_determined db t q ranking :
  db !! tablename = Some t →
  (∀ r1 r2, r1 ∈ rows t → r2 ∈ rows t →
     distance_le (cosine_distance (embedding r1) q)
                 (cosine_distance (embedding r2) q) = true →
     distance_le (cosine_distance (embedding r2) q)
                 (cosine_distance (embedding r1) q) = true →
     r1 = r2) →
  ranking ≡ₚ (λ obj, (obj, cosine_distance (embedding obj) q)) <$> rows t →
  StronglySorted asc ranking →
  run (search q) db = (Ok (take 5 ranking), db).
Proof.
  intros Ht Hties Hperm Hsorted. rewrite run_search, Ht. unfold limit.
  do 3 f_equal. symmetry.
  apply (StronglySorted_unique_strong asc); [|done|apply order_by_asc_sorted|].
  - intros x1 x2 Hx1 Hx2 H12 H21.
    rewrite Hperm in Hx1. rewrite order_by_asc_perm in Hx2.
    apply (query_elem q t) in Hx1 as (r1 & Hr1 & ->).
    apply query_elem in Hx2 as (r2 & Hr2 & ->).
    by rewrite (Hties r1 r2 Hr1 Hr2 H12 H21).
  - by rewrite Hperm, order_by_asc_perm.
Qed.

(** *** The subscript in the ingestion loop *)

Lemma getitem_nat_None {A} (xs : list A) (i : nat) :
  xs !! i = None → getitem xs (Z.of_nat i) = Err IndexError.
Proof.
  intros Hnone. unfold getitem. cbv zeta.
  assert ((Z.of_nat i <? 0)%Z = false) as Hi by (apply Z.ltb_ge; lia).
  by rewrite !Hi, Nat2Z.id, Hnone.
Qed.

Lemma build_objects_short (images : list image) (embs : list (@vector scalar)) i :
  length images < i + length embs →
  i ≤ length images →
  build_objects images i embs = Err IndexError.
Proof.
  revert i. induction embs as [|e embs IH]; intros i Hlong Hi; cbn in *; [lia|].
  destruct (images !! i) as [img|] eqn:Himg.
  - rewrite (getitem_nat _ _ _ Himg). cbn.
    apply lookup_lt_Some in Himg. rewrite IH by lia. done.
  - by rewrite (getitem_nat_None _ _ Himg).
Qed.

(** X8: the loop over the embeddings reads [imagenet_images[i]] for every
    index it enumerates.  It therefore builds its objects exactly when
    there are at most as many embeddings as images, and ends in an
    IndexError as soon as there are more. *)
Theorem build_objects_guard (images : list image) (embs : list (@vector scalar)) :
  (length embs ≤ length images →
   build_objects images 0 embs = Ok (objects_of embs)) ∧
  (length images < length embs →
   build_objects images 0 embs = Err IndexError).
Proof.
  split; intros Hlen.
  - by rewrite build_objects_Ok by lia.
  - apply build_objects_short; lia.
Qed.

(** *** The display loop *)

Lemma getitem_Ok_range {A} (xs : list A) (i : Z) (a : A) :
  getitem xs i = Ok a →
  (- Z.of_nat (length xs) ≤ i < Z.of_nat (length xs))%Z ∧
  xs !! Z.to_nat (if (i <? 0)%Z then Z.of_nat (length xs) + i else i)%Z = Some a.
Proof.
  unfold getitem. cbv zeta.
  destruct (i <? 0)%Z eqn:Hneg;
    [apply Z.ltb_lt in Hneg|apply Z.ltb_ge in Hneg].
  - destruct (Z.of_nat (length xs) + i <? 0)%Z eqn:Hlow; [done|].
    apply Z.ltb_ge in Hlow.
    destruct (xs !! Z.to_nat (Z.of_nat (length xs) + i)) eqn:Hx; [|done].
    intros [= ->]. split; [lia|done].
  - rewrite (proj2 (Z.ltb_ge i 0) Hneg).
    destruct (xs !! Z.to_nat i) eqn:Hx; [|done].
    intros [= ->]. apply lookup_lt_Some in Hx as Hlt. split; [lia|done].
Qed.

Lemma getitem_in_python_range {A} (xs : list A) (i : Z) :
  (- Z.of_nat (length xs) ≤ i < Z.of_nat (length xs))%Z → ∃ a, getitem xs i = Ok a.
Proof.
  intros Hi. destruct (decide (0 ≤ i)%Z) as [Hpos|Hneg].
  - apply getitem_in_range. lia.
  - unfold getitem. cbv zeta.
    rewrite (proj2 (Z.ltb_lt i 0)) by lia.
    rewrite (proj2 (Z.ltb_ge (Z.of_nat (length xs) + i) 0)) by lia.
    destruct (lookup_lt_is_Some_2 xs (Z.to_nat (Z.of_nat (length xs) + i)))
      as [a ->]; [lia|]. by exists a.
Qed.

Lemma collect_cons (images : list image) obj (d : distance) l out :
  collect images ((obj, d) :: l) = Ok out ↔
  ∃ img out', getitem images (image_id obj) = Ok img ∧
              collect images l = Ok out' ∧
              out = (img :: out'.1, similarity d :: out'.2).
Proof.
  cbn. destruct (getitem images (image_id obj)) as [img|]; cbn.
  - destruct (collect images l) as [out'|]; cbn.
    + split; [intros [= <-]; by eexists _, _|].
      by intros (? & ? & [= <-] & [= <-] & ->).
    + split; [done|]. by intros (? & ? & _ & ? & _).
  - split; [done|]. by intros (? & ? & ? & _).
Qed.

(** X9: the two lists the display loop fills are aligned with the result:
    the i-th image is [imagenet_images] subscripted by the i-th
    record's [image_id], the i-th label is the similarity of the i-th
    distance. *)
Theorem collect_aligned (images : list image) l out :
  collect images l = Ok out →
  Forall2 (λ x img, getitem images (image_id x.1) = Ok img) l out.1 ∧
  out.2 = (λ x, similarity x.2) <$> l.
Proof.
  revert out. induction l as [|[obj d] l IH]; intros out.
  - intros [= <-]. by split; [constructor|].
  - intros (img & out' & Himg & Hout' & ->)%collect_cons.
    destruct (IH out' Hout') as [Himgs Hsims]. cbn. split; [by constructor|].
    by rewrite Hsims.
Qed.

(** X10: the display loop goes through exactly when every record's
    [image_id] is a valid Python subscript of the list, negative ones
    counting from the end; as soon as one lies outside
    [-len, len) the loop ends in an IndexError. *)
Theorem collect_succeeds_iff (images : list image) l :
  (Forall (λ x, (- Z.of_nat (length images) ≤ image_id x.1
                 < Z.of_nat (length images))%Z) l →
   ∃ out, collect images l = Ok out) ∧
  (Exists (λ x, ¬ (- Z.of_nat (length images) ≤ image_id x.1
                   < Z.of_nat (length images))%Z) l →
   collect images l = Err IndexError).
Proof.
  split.
  - induction 1 as [|[obj d] l Hx _ [out Hout]]; [by eexists|].
    destruct (getitem_in_python_range images (image_id obj) Hx) as [img Himg].
    eexists. apply collect_cons. by eexists _, _.
  - induction 1 as [[obj d] l Hx|[obj d] l _ IH]; cbn.
    + destruct (getitem images (image_id obj)) as [img|e] eqn:Hg; cbn.
      * by apply getitem_Ok_range in Hg as [? _].
      * by apply getitem_Err in Hg as ->.
    + destruct (getitem images (image_id obj)) as [img|e] eqn:Hg; cbn.
      * by rewrite IH.
      * by apply getitem_Err in Hg as ->.
Qed.

(** *** The cells end to end *)

(** The table after the initialisation cell and one successful
    ingestion: one row per image, keyed from 1. *)
Lemma ingested_table (images : list image) db0 db1 :
  run (ingest images) (init_schema db0) = (Ok (), db1) →
  ∃ (inputs : list pixel_values) t,
    Forall2 (λ img p, processor_image img = inr p) images inputs ∧
    db1 !! tablename = Some t ∧
    vector_dim t = CLIP_DIMENSION ∧
    rows t = stored_from 1 (objects_of (get_image_features <$> inputs)) ∧
    next_id t = (1 + Z.of_nat (length images))%Z.
Proof.
  intros (embs & Henc & Hfl)%ingest_Ok.
  apply encode_images_Ok in Henc as (inputs & Hp & ->).
  pose proof (Forall2_length _ _ _ Hp) as Hlen.
  exists inputs. apply flush_Ok in Hfl as [[Hnil ->]|(t & Ht & _ & ->)].
  - exists image_search_test. rewrite Hnil.
    apply (f_equal length) in Hnil. rewrite objects_of_length, length_fmap in Hnil.
    rewrite init_schema_lookup. split_and!; try done. cbn in *. lia.
  - rewrite init_schema_lookup in Ht. injection Ht as <-.
    eexists. rewrite lookup_insert_eq. split_and!; try done.
    cbn. rewrite objects_of_length, length_fmap. lia.
Qed.

(** X11: after the initialisation cell and one successful ingestion, the
    query cell succeeds exactly when the processor accepts the query
    text.  It then shows 5 images, or all of them when fewer were
    ingested, with as many labels; a rejected text ends the cell with
    the processor's exception before the database is queried. *)
Theorem query_cell_outcome (images : list image) (text : string) db0 db1 :
  run (ingest images) (init_schema db0) = (Ok (), db1) →
  (∀ ids, processor_text text = inr ids →
     ∃ out, run (search_images images text) db1 = (Ok out, db1) ∧
            length out.1 = 5 `min` length images ∧
            length out.2 = 5 `min` length images) ∧
  (∀ e, processor_text text = inl e →
     run (search_images images text) db1 = (Err (EncodingError e), db1)).
Proof.
  intros (inputs & t & Hp & Ht & _ & Hrows & _)%ingested_table.
  pose proof (Forall2_length _ _ _ Hp) as Hlen.
  split.
  - intros ids Hids. rewrite run_search_images.
    destruct (encode_text_cases text) as [(e & He & _)|(ids' & _ & ->)]; [congruence|].
    rewrite Ht.
    destruct (collect_in_range images
                (limit 5 (order_by_asc (query (get_text_features ids') t))))
      as (out & -> & Hl1 & Hl2).
    { apply Forall_take. rewrite order_by_asc_perm. unfold query.
      apply Forall_fmap, Forall_forall. intros r Hr. cbn.
      rewrite Hrows in Hr. apply stored_objects_image_id in Hr.
      rewrite length_fmap in Hr. lia. }
    exists out. destruct (ranking_split (get_text_features ids') t) as (_ & _ & Hn).
    rewrite Hl1, Hl2, Hn, Hrows, stored_from_length, objects_of_length, length_fmap.
    split_and!; (done || lia).
  - intros e He. rewrite run_search_images.
    destruct (encode_text_cases text) as [(e' & He' & ->)|(ids' & Hids & _)];
      congruence.
Qed.

(** X12: after the initialisation cell and one successful ingestion, each
    image the display loop picks is the very image the record was made
    from: the record's embedding is the features of that image, and the
    image stands in the list at the record's [image_id]. *)
Theorem displayed_images_match (images : list image) db0 db1 q results db2 out :
  run (ingest images) (init_schema db0) = (Ok (), db1) →
  run (search q) db1 = (Ok results, db2) →
  collect images results = Ok out →
  Forall2 (λ x img, ∃ p, processor_image img = inr p ∧
                         embedding x.1 = get_image_features p ∧
                         images !! Z.to_nat (image_id x.1) = Some img)
          results out.1.
Proof.
  intros (inputs & t & Hp & Ht & _ & Hrows & _)%ingested_table.
  rewrite run_search, Ht. intros Hrun.
  assert (results = limit 5 (order_by_asc (query q t))) as Hres by congruence.
  assert (Forall (λ x, ∃ i p img, image_id x.1 = Z.of_nat i ∧
                         images !! i = Some img ∧
                         processor_image img = inr p ∧
                         embedding x.1 = get_image_features p) results) as Hall.
  { rewrite Hres. apply Forall_take. rewrite order_by_asc_perm. unfold query.
    apply Forall_fmap, Forall_forall. intros r Hr. cbn.
    rewrite Hrows in Hr. apply list_elem_of_lookup_1 in Hr as [i Hi].
    apply stored_objects_lookup in Hi as (e & He & ->). cbn.
    apply list_lookup_fmap_Some in He as (p & -> & Hpi).
    destruct (Forall2_lookup_r _ _ _ _ _ Hp Hpi) as (img & Himg & Hacc).
    by exists i, p, img. }
  clear Hres Hrun. revert out. induction Hall as [|[obj d] l Hx _ IH]; intros out.
  - intros [= <-]. constructor.
  - intros (img & out' & Himg & Hout' & ->)%collect_cons. cbn.
    constructor; [|by apply IH].
    destruct Hx as (i & p & img' & Hid & Himg' & Hacc & Hemb). cbn in *.
    rewrite Hid in Himg. rewrite (getitem_nat _ _ _ Himg') in Himg.
    injection Himg as <-. exists p. by rewrite Hid, Nat2Z.id.
Qed.

(** X13: running the ingestion cell a second time, without the initialisation
    cell in between, succeeds and stores every image again: the table
    then holds twice as many rows, the old ones unchanged and, for each
    of them, a new row with the same [image_id] and embedding under a
    different primary key. *)
Theorem ingest_twice_duplicates (images : list image) db0 db1 :
  run (ingest images) (init_schema db0) = (Ok (), db1) →
  ∃ db2,
    run (ingest images) db1 = (Ok (), db2) ∧
    length (visible db2) = 2 * length images ∧
    ∀ i r, visible db1 !! i = Some r →
      visible db2 !! i = Some r ∧
      ∃ r', visible db2 !! (length images + i) = Some r' ∧
            image_id r' = image_id r ∧
            embedding r' = embedding r ∧
            id r' ≠ id r.
Proof.
  intros Hrun.
  assert (images ≠ []) as Hne.
  { apply ingest_Ok in Hrun as (embs & Henc%encode_images_nonempty & _). done. }
  apply ingested_table in Hrun as (inputs & t & Hp & Ht & Hdim & Hrows & Hnext).
  pose proof (Forall2_length _ _ _ Hp) as Hlen.
  set (embs := get_image_features <$> inputs) in *.
  assert (length (rows t) = length images) as Hn.
  { unfold embs in Hrows.
    by rewrite Hrows, stored_from_length, objects_of_length, length_fmap. }
  exists (<[tablename := extended t (objects_of embs)]> db1). split_and!.
  - apply ingest_Ok. exists embs. split; [by apply encode_images_accepted|].
    apply flush_Ok. right. exists t. split_and!; [done| |done].
    apply Forall_forall. intros obj (i & e & -> & He)%elem_of_lookup_imap.
    apply list_lookup_fmap_Some in He as (p & -> & _).
    cbn. by rewrite image_features_dim.
  - rewrite visible_insert. cbn.
    rewrite length_app, Hn, stored_from_length, objects_of_length.
    unfold embs. rewrite length_fmap. lia.
  - intros i r. unfold visible at 1. rewrite Ht, visible_insert. cbn. intros Hr.
    pose proof (lookup_lt_Some _ _ _ Hr) as Hi.
    split; [by rewrite lookup_app_l|].
    rewrite Hrows in Hr. apply stored_objects_lookup in Hr as (e & He & ->).
    eexists. rewrite lookup_app_r by lia.
    replace (length images + i - length (rows t)) with i by lia.
    split; [apply stored_objects_lookup; by eexists|].
    cbn. split_and!; [done|done|]. intros [= Hid]. lia.
Qed.

End Properties.

(** ** The exact cosine distance *)

Section OnExact.

Import Exact.

Lemma dot_self_nonneg u : (0 <= dot u u)%R.
Proof.
  unfold dot. induction u as [|a u IH]; cbn [zip_with foldr]; [lra|].
  pose proof (Rle_0_sqr a) as Ha. unfold Rsqr in Ha. lra.
Qed.

(** Cauchy-Schwarz; [dot u v] runs over the common prefix when the
    lengths differ. *)
Lemma cauchy_schwarz u v : (dot u v * dot u v <= dot u u * dot v v)%R.
Proof.
  revert v. induction u as [|a u IH]; intros [|b v].
  - unfold dot. cbn. lra.
  - unfold dot. cbn [zip_with foldr]. lra.
  - unfold dot. cbn [zip_with foldr]. lra.
  - specialize (IH v).
    pose proof (dot_self_nonneg u) as HA. pose proof (dot_self_nonneg v) as HB.
    unfold dot in *. cbn [zip_with foldr].
    set (s := foldr Rplus 0%R (zip_with Rmult u v)) in *.
    set (A := foldr Rplus 0%R (zip_with Rmult u u)) in *.
    set (B := foldr Rplus 0%R (zip_with Rmult v v)) in *.
    clearbody s A B.
    assert (0 <= a * a)%R as Haa by apply Rle_0_sqr.
    assert (0 <= b * b)%R as Hbb by apply Rle_0_sqr.
    assert (0 <= a * a * B)%R as HaB by (by apply Rmult_le_pos).
    assert (0 <= b * b * A)%R as HbA by (by apply Rmult_le_pos).
    assert (2 * (a * b * s) <= a * a * B + b * b * A)%R as Hmid; [|lra].
    destruct (Rle_or_lt (2 * (a * b * s)) (a * a * B + b * b * A)) as [|Hlt]; [done|].
    exfalso.
    assert ((a * a * B + b * b * A) * (a * a * B + b * b * A)
            < (2 * (a * b * s)) * (2 * (a * b * s)))%R as Hsq
      by (apply Rmult_le_0_lt_compat; lra).
    assert (0 <= (a * a * B - b * b * A) * (a * a * B - b * b * A))%R as Hd
      by apply Rle_0_sqr.
    assert (0 <= (a * a) * (b * b) * (A * B - s * s))%R as He
      by (apply Rmult_le_pos; [by apply Rmult_le_pos|lra]).
    lra.
Qed.

Lemma dot_le_norms u v : (dot u v <= norm u * norm v)%R.
Proof.
  unfold norm. rewrite <-sqrt_mult by apply dot_self_nonneg.
  eapply Rle_trans; [apply Rle_abs|].
  rewrite <-sqrt_Rsqr_abs. apply sqrt_le_1_alt. unfold Rsqr. apply cauchy_schwarz.
Qed.

Lemma cosine_nonneg u v : (0 <= cosine u v)%R.
Proof.
  unfold cosine.
  assert (0 <= norm u * norm v)%R as [Hpos|Hz]
    by (apply Rmult_le_pos; apply sqrt_pos).
  - pose proof (dot_le_norms u v) as Hle.
    assert (dot u v / (norm u * norm v) <= 1)%R; [|lra].
    apply (Rmult_le_reg_r (norm u * norm v)); [done|].
    unfold Rdiv. rewrite Rmult_assoc, Rinv_l by lra. lra.
  - rewrite <-Hz. unfold Rdiv. rewrite Rinv_0. lra.
Qed.

Lemma cosine_self q : (0 < dot q q)%R → cosine q q = 0%R.
Proof.
  intros Hq. unfold cosine, norm. rewrite sqrt_sqrt by lra.
  unfold Rdiv. rewrite Rinv_r by lra. lra.
Qed.

(** For a query that has a direction, the distance to itself is 0 and
    no vector is nearer: what the ranking of a stored embedding queried
    with itself relies on. *)
Lemma cosine_self_least q :
  (0 < dot q q)%R →
  cosine_distance q q = 0%R ∧
  ∀ u, distance_le (cosine_distance q q) (cosine_distance u q) = true.
Proof.
  intros Hq. cbn. rewrite (cosine_self q Hq). split; [done|].
  intros u. apply Rleb_le, cosine_nonneg.
Qed.

End OnExact.

(** ** The properties on the small instance *)

Section OnSample.

Import Sample.

Example ingest_three : (after_ingest [3; 1; 2]%Z).1 = Ok ().
Proof. vm_compute; reflexivity. Qed.

Example search_three :
  summary <$> (run (search dog) (db_of [3; 1; 2]%Z)).1
  = Ok [(0, 0); (2, 1); (1, 4)]%Z.
Proof. vm_compute; reflexivity. Qed.

Example search_images_three :
  (run (search_images [3; 1; 2]%Z "dog") (db_of [3; 1; 2]%Z)).1
  = Ok ([3; 2; 1], [1; 0; -3])%Z.
Proof. vm_compute; reflexivity. Qed.

Example ingest_corrupt : (after_ingest [3; -1; 2]%Z).1 = Err (EncodingError InputError).
Proof. vm_compute; reflexivity. Qed.

(** A session whose second object does not fit the column: the first
    INSERT goes through, the second is rejected, and the commit leaves
    no row behind. *)
Example commit_rolls_back :
  run (commit (add_all [ {| id := None; image_id := 0; embedding := get_image_features 3%Z |};
                         {| id := None; image_id := 1; embedding := [1; 2; 3]%Z |} ]
                       Session))
      (init_schema ∅)
  = (Err StorageError, init_schema ∅).
Proof. vm_compute; reflexivity. Qed.

Lemma sq_distance_nonneg (u v : list Z) : (0 ≤ sq_distance u v)%Z.
Proof.
  unfold sq_distance. revert v.
  induction u as [|a u IH]; intros [|b v]; cbn [zip_with foldr]; try done.
  specialize (IH v). pose proof (Z.square_nonneg (a - b)). lia.
Qed.

Lemma search_ranked_top5_witness :
  ∃ results rest,
    run (search dog) (db_of [3; 1; 2]%Z) = (Ok results, db_of [3; 1; 2]%Z) ∧
    results ++ rest ≡ₚ
      (λ obj, (obj, cosine_distance (embedding obj) dog)) <$> rows (table_of [3; 1; 2]%Z) ∧
    StronglySorted asc (results ++ rest) ∧
    length results = 5 `min` length (rows (table_of [3; 1; 2]%Z)).
Proof.
  apply (search_ranked_top5 (db_of [3; 1; 2]%Z) (table_of [3; 1; 2]%Z) dog).
  vm_compute; reflexivity.
Defined.

(** C1, as stated, fails: the result is not the ranking truncated to
    whatever K a caller wants.  With 3 records stored, a caller who
    wants the nearest K = 1 still gets all 3: the cell has no K to give
    and truncates at 5. *)
Lemma search_ignores_requested_K :
  ¬ (∀ K : nat,
       (run (search dog) (db_of [3; 1; 2]%Z)).1
       = Ok (take K (order_by_asc (query dog (table_of [3; 1; 2]%Z))))).
Proof.
  intros Hclaim. specialize (Hclaim 1).
  apply (f_equal (fmap (M := result) length)) in Hclaim.
  vm_compute in Hclaim. discriminate.
Qed.

Lemma search_at_most_5_witness :
  ∃ results,
    run (search dog) (db_of [3; 1; 2; 4; 5; 6]%Z) = (Ok results, db_of [3; 1; 2; 4; 5; 6]%Z) ∧
    length results ≤ 5 ∧
    (5 ≤ length (visible (db_of [3; 1; 2; 4; 5; 6]%Z)) → length results = 5).
Proof.
  eexists. split; [vm_compute; reflexivity|].
  eapply (search_at_most_5 (db_of [3; 1; 2; 4; 5; 6]%Z) dog). vm_compute; reflexivity.
Defined.

Lemma search_has_no_InvalidK_witness :
  ∃ results,
    run (search dog) (db_of [3; 1; 2]%Z) = (Ok results, db_of [3; 1; 2]%Z) ∧
    results ≡ₚ
      (λ obj, (obj, cosine_distance (embedding obj) dog)) <$> rows (table_of [3; 1; 2]%Z) ∧
    StronglySorted asc results.
Proof.
  apply (proj2 (proj2 (search_has_no_InvalidK [3; 1; 2]%Z "dog" (db_of [3; 1; 2]%Z) dog))
           (table_of [3; 1; 2]%Z)).
  - vm_compute; reflexivity.
  - vm_compute. lia.
Defined.

(** C4, as stated, fails on both counts, here with 6 records stored.
    A caller who wants K = 0 records gets a result, not InvalidK; and a
    caller who wants K = 7 > 6 of them gets 5 records, not all 6. *)
Lemma query_cell_takes_no_K :
  ¬ (∀ K : Z, (K ≤ 0)%Z →
       (run (search_images [3; 1; 2; 4; 5; 6]%Z "dog") (db_of [3; 1; 2; 4; 5; 6]%Z)).1
       = Err InvalidK) ∧
  ¬ (∀ K : nat, K > length (visible (db_of [3; 1; 2; 4; 5; 6]%Z)) →
       ∃ results,
         (run (search dog) (db_of [3; 1; 2; 4; 5; 6]%Z)).1 = Ok results ∧
         length results = length (visible (db_of [3; 1; 2; 4; 5; 6]%Z))).
Proof.
  split.
  - intros Hclaim. specialize (Hclaim 0%Z ltac:(lia)).
    vm_compute in Hclaim. discriminate.
  - intros Hclaim. destruct (Hclaim 7) as (results & Hrun & Hlen).
    { vm_compute. lia. }
    apply (f_equal (fmap (M := result) length)) in Hrun.
    vm_compute in Hrun, Hlen. congruence.
Qed.

Lemma search_self_first_witness :
  ∃ r,
    rows (table_of [4; 4; 7]%Z) !! 2 = Some r ∧
    ∃ r' d rest,
      run (search (embedding r)) (db_of [4; 4; 7]%Z)
      = (Ok ((r', d) :: rest), db_of [4; 4; 7]%Z) ∧
      r' ∈ rows (table_of [4; 4; 7]%Z) ∧
      d = cosine_distance (embedding r') (embedding r) ∧
      distance_le d (cosine_distance (embedding r) (embedding r)) = true ∧
      distance_le (cosine_distance (embedding r) (embedding r)) d = true ∧
      ((∀ r0, r0 ∈ rows (table_of [4; 4; 7]%Z) →
          distance_le (cosine_distance (embedding r0) (embedding r))
                      (cosine_distance (embedding r) (embedding r)) = true →
          r0 = r) →
       r' = r).
Proof.
  eexists. split; [vm_compute; reflexivity|].
  apply (search_self_first (db_of [4; 4; 7]%Z) (table_of [4; 4; 7]%Z)).
  - vm_compute; reflexivity.
  - eapply list_elem_of_lookup_2 with (i := 2). vm_compute; reflexivity.
  - intros u. apply Z.leb_le.
    etransitivity; [|apply sq_distance_nonneg]. by vm_compute.
Defined.

(** C5, as stated, fails: two of the N = 3 inserted records have the
    same embedding (the same image was ingested twice).  Queried with
    that embedding, the search has one first entry, so one of the two
    records is not returned first, although its embedding is the query
    vector and the limit 5 is at least N. *)
Lemma duplicate_embedding_one_is_not_first :
  length (rows (table_of [4; 4; 7]%Z)) ≤ 5 ∧
  ¬ (∀ r, r ∈ rows (table_of [4; 4; 7]%Z) →
       ∃ d rest,
         (run (search (embedding r)) (db_of [4; 4; 7]%Z)).1 = Ok ((r, d) :: rest)).
Proof.
  split; [vm_compute; lia|]. intros Hclaim.
  destruct (Hclaim {| id := Some 1%Z; image_id := 0%Z;
                      embedding := get_image_features 4%Z |})
    as (d1 & rest1 & Hrun1).
  { eapply list_elem_of_lookup_2 with (i := 0). vm_compute; reflexivity. }
  destruct (Hclaim {| id := Some 2%Z; image_id := 1%Z;
                      embedding := get_image_features 4%Z |})
    as (d2 & rest2 & Hrun2).
  { eapply list_elem_of_lookup_2 with (i := 1). vm_compute; reflexivity. }
  cbn [embedding] in Hrun1, Hrun2. rewrite Hrun1 in Hrun2.
  injection Hrun2 as Hid _. discriminate.
Qed.

Lemma ingest_atomic_witness :
  ∃ e, run (ingest [3; -1; 2]%Z) (db_of [4; 4; 7]%Z)
       = (Err (EncodingError e), db_of [4; 4; 7]%Z).
Proof.
  apply (proj2 (ingest_atomic [3; -1; 2]%Z (db_of [4; 4; 7]%Z))).
  right. left. exists InputError. vm_compute; reflexivity.
Defined.

Lemma ingest_one_record_per_item_witness :
  (∃ added,
     visible (run (ingest [3; 1]%Z) (db_of [4; 4; 7]%Z)).2
     = visible (db_of [4; 4; 7]%Z) ++ added ∧
     length added = 2 ∧
     ∀ i img, [3; 1]%Z !! i = Some img →
       ∃ p r, processor_image img = inr p ∧
              added !! i = Some r ∧
              image_id r = Z.of_nat i ∧
              embedding r = get_image_features p) ∧
  (∃ db', run (ingest [3; 1]%Z) (db_of [4; 4; 7]%Z) = (Ok (), db')).
Proof.
  split.
  - apply (proj1 (ingest_one_record_per_item [3; 1]%Z (db_of [4; 4; 7]%Z))).
    vm_compute; reflexivity.
  - apply (proj2 (ingest_one_record_per_item [3; 1]%Z (db_of [4; 4; 7]%Z))
             (table_of [4; 4; 7]%Z)).
    + done.
    + vm_compute; reflexivity.
    + vm_compute; reflexivity.
    + repeat constructor; by eexists.
Defined.

Lemma embeddings_have_clip_dimension_witness :
  (∀ r, r ∈ rows (table_of [4; 4; 7]%Z) →
     vector_dim (table_of [4; 4; 7]%Z) = CLIP_DIMENSION ∧
     length (embedding r) = CLIP_DIMENSION) ∧
  (∀ embs, encode_images_to_embeddings [4; 4; 7]%Z = Ok embs →
     length embs = 3 ∧ ∀ i v, embs !! i = Some v → length v = CLIP_DIMENSION).
Proof.
  destruct (embeddings_have_clip_dimension (H := clip)) as (_ & Hrows & Henc).
  split.
  - intros r. apply (Hrows (db_of [4; 4; 7]%Z)).
    + apply ingest_reachable, reachable_init.
    + vm_compute; reflexivity.
  - intros embs. by apply Henc.
Defined.

Lemma display_in_bounds_witness :
  (∀ q results db2,
     run (search q) (db_of [3; 1; 2]%Z) = (Ok results, db2) →
     Forall (λ x, (0 ≤ image_id x.1 < 3)%Z) results ∧
     ∃ out, collect [3; 1; 2]%Z results = Ok out) ∧
  (∀ text, (run (search_images [3; 1; 2]%Z text) (db_of [3; 1; 2]%Z)).1 ≠ Err IndexError).
Proof.
  apply (display_in_bounds [3; 1; 2]%Z ∅ (db_of [3; 1; 2]%Z)). vm_compute; reflexivity.
Defined.

(** *** The further properties on the small instance *)

Lemma cells_leave_other_tables_witness :
  let db : gmap string (@table Z) := <["users" := image_search_test]> ∅ in
  init_schema db !! "users" = db !! "users" ∧
  (run (ingest [3; 1]%Z) db).2 !! "users" = db !! "users" ∧
  (run (search_images [3; 1]%Z "dog") db).2 !! "users" = db !! "users".
Proof.
  cbn zeta.
  apply (cells_leave_other_tables [3; 1]%Z "dog" (<["users" := image_search_test]> ∅) "users").
  discriminate.
Defined.

Lemma cells_need_the_table_witness :
  run (ingest [3; 1]%Z) ∅ = (Err StorageError, ∅) ∧
  run (search dog) ∅ = (Err StorageError, ∅) ∧
  run (search_images [3; 1]%Z "dog") ∅ = (Err StorageError, ∅).
Proof.
  destruct (cells_need_the_table [3; 1]%Z "dog" ∅) as (Hingest & Hsearch & Hcell).
  { reflexivity. }
  split_and!.
  - apply Hingest; [done|]. repeat constructor; by eexists.
  - apply Hsearch.
  - by apply (Hcell "dog").
Defined.

Lemma commit_rejects_misfit_witness :
  run (commit (add_all [ {| id := None; image_id := 0; embedding := get_image_features 3%Z |};
                         {| id := None; image_id := 1; embedding := [1; 2]%Z |} ]
                       Session))
      (db_of [4; 4; 7]%Z)
  = (Err StorageError, db_of [4; 4; 7]%Z).
Proof.
  apply (commit_rejects_misfit _ (db_of [4; 4; 7]%Z) (table_of [4; 4; 7]%Z)).
  - vm_compute; reflexivity.
  - right. left. vm_compute. discriminate.
Defined.

Lemma primary_keys_distinct_witness :
  ∃ ks : list Z, id <$> rows (table_of [4; 4; 7]%Z) = Some <$> ks ∧ NoDup ks.
Proof.
  apply (primary_keys_distinct (db_of [4; 4; 7]%Z)).
  - apply ingested_ingest, ingested_init.
  - vm_compute; reflexivity.
Defined.

Lemma search_returns_rows_once_witness :
  ∃ results,
    run (search dog) (db_of [3; 1; 2; 4; 5; 6]%Z)
    = (Ok results, db_of [3; 1; 2; 4; 5; 6]%Z) ∧
    NoDup ((λ x, id x.1) <$> results).
Proof.
  eexists. split; [vm_compute; reflexivity|].
  eapply (search_returns_rows_once (db_of [3; 1; 2; 4; 5; 6]%Z) dog).
  - apply ingested_ingest, ingested_init.
  - vm_compute; reflexivity.
Defined.

Lemma search_result_determined_witness :
  let a := {| id := Some 1%Z; image_id := 0; embedding := get_image_features 3%Z |} in
  let b := {| id := Some 2%Z; image_id := 1; embedding := get_image_features 1%Z |} in
  let c := {| id := Some 3%Z; image_id := 2; embedding := get_image_features 2%Z |} in
  run (search dog) (db_of [3; 1; 2]%Z)
  = (Ok (take 5 [(a, 0%Z); (c, 1%Z); (b, 4%Z)]), db_of [3; 1; 2]%Z).
Proof.
  cbn zeta.
  assert (rows (table_of [3; 1; 2]%Z)
          = [ {| id := Some 1%Z; image_id := 0; embedding := get_image_features 3%Z |};
              {| id := Some 2%Z; image_id := 1; embedding := get_image_features 1%Z |};
              {| id := Some 3%Z; image_id := 2; embedding := get_image_features 2%Z |} ])
    as Hrows by (vm_compute; reflexivity).
  apply (search_result_determined (db_of [3; 1; 2]%Z) (table_of [3; 1; 2]%Z) dog).
  - vm_compute; reflexivity.
  - rewrite Hrows. intros r1 r2 Hr1 Hr2.
    repeat (apply elem_of_cons in Hr1 as [->|Hr1]);
      [| | |by apply elem_of_nil in Hr1];
      (repeat (apply elem_of_cons in Hr2 as [->|Hr2]);
         [| | |by apply elem_of_nil in Hr2]);
      intros H12 H21; try reflexivity;
      vm_compute in H12, H21; discriminate.
  - rewrite Hrows. cbn [fmap list_fmap]. change (cosine_distance ?u ?v) with (sq_distance u v).
    replace (sq_distance (embedding _) dog) with 0%Z at 1 by (vm_compute; reflexivity).
    apply perm_skip. apply perm_swap.
  - repeat constructor.
Defined.

Lemma build_objects_guard_witness :
  build_objects [3; 1]%Z 0 [[1]; [2]]%Z = Ok (objects_of [[1]; [2]]%Z) ∧
  build_objects [3; 1]%Z 0 [[1]; [2]; [3]]%Z = Err IndexError.
Proof.
  split.
  - apply (proj1 (build_objects_guard [3; 1]%Z [[1]; [2]]%Z)). cbn. lia.
  - apply (proj2 (build_objects_guard [3; 1]%Z [[1]; [2]; [3]]%Z)). cbn. lia.
Defined.

Lemma collect_aligned_witness :
  let last := ({| id := Some 1%Z; image_id := -1; embedding := [0]%Z |}, 0%Z) in
  let first := ({| id := Some 2%Z; image_id := 0; embedding := [0]%Z |}, 4%Z) in
  Forall2 (λ x img, getitem [3; 1; 2]%Z (image_id x.1) = Ok img)
          [last; first] [2; 3]%Z ∧
  [1; -3]%Z = (λ x, similarity x.2) <$> [last; first].
Proof.
  cbn zeta.
  apply (collect_aligned [3; 1; 2]%Z
           [({| id := Some 1%Z; image_id := -1; embedding := [0]%Z |}, 0%Z);
            ({| id := Some 2%Z; image_id := 0; embedding := [0]%Z |}, 4%Z)]
           ([2; 3]%Z, [1; -3]%Z)).
  reflexivity.
Defined.

Lemma collect_succeeds_iff_witness :
  (∃ out, collect [3; 1; 2]%Z
            [({| id := Some 1%Z; image_id := -3; embedding := [0]%Z |}, 0%Z)] = Ok out) ∧
  collect [3; 1; 2]%Z
    [({| id := Some 1%Z; image_id := 0; embedding := [0]%Z |}, 0%Z);
     ({| id := Some 2%Z; image_id := 3; embedding := [0]%Z |}, 0%Z)] = Err IndexError.
Proof.
  split.
  - apply (proj1 (collect_succeeds_iff [3; 1; 2]%Z _)).
    repeat constructor; cbn; lia.
  - apply (proj2 (collect_succeeds_iff [3; 1; 2]%Z _)).
    right. left. cbn. lia.
Defined.

Lemma query_cell_outcome_witness :
  ∃ out,
    run (search_images [3; 1; 2]%Z "dog") (db_of [3; 1; 2]%Z)
    = (Ok out, db_of [3; 1; 2]%Z) ∧
    length out.1 = 3 ∧ length out.2 = 3.
Proof.
  destruct (query_cell_outcome [3; 1; 2]%Z "dog" ∅ (db_of [3; 1; 2]%Z)) as [Hok _].
  { vm_compute; reflexivity. }
  apply (Hok "dog"). reflexivity.
Defined.

Lemma displayed_images_match_witness :
  ∃ results out,
    run (search dog) (db_of [3; 1; 2]%Z) = (Ok results, db_of [3; 1; 2]%Z) ∧
    collect [3; 1; 2]%Z results = Ok out ∧
    Forall2 (λ x img, ∃ p, processor_image img = inr p ∧
                           embedding x.1 = get_image_features p ∧
                           [3; 1; 2]%Z !! Z.to_nat (image_id x.1) = Some img)
            results out.1.
Proof.
  do 2 eexists. split; [vm_compute; reflexivity|]. split; [vm_compute; reflexivity|].
  eapply (displayed_images_match [3; 1; 2]%Z ∅ (db_of [3; 1; 2]%Z) dog).
  - vm_compute; reflexivity.
  - vm_compute; reflexivity.
  - vm_compute; reflexivity.
Defined.

Lemma ingest_twice_duplicates_witness :
  ∃ db2,
    run (ingest [3; 1; 2]%Z) (db_of [3; 1; 2]%Z) = (Ok (), db2) ∧
    length (visible db2) = 6 ∧
    ∀ i r, visible (db_of [3; 1; 2]%Z) !! i = Some r →
      visible db2 !! i = Some r ∧
      ∃ r', visible db2 !! (3 + i) = Some r' ∧
            image_id r' = image_id r ∧
            embedding r' = embedding r ∧
            id r' ≠ id r.
Proof.
  apply (ingest_twice_duplicates [3; 1; 2]%Z ∅ (db_of [3; 1; 2]%Z)).
  vm_compute; reflexivity.
Defined.

End OnSample.
